(** * runs.transaction.transaction: the transaction coordinator

    A shallow embedding of [src/runs/transaction/transaction.py]:
    the natural sort key [natural_keys], the three-phase protocol of
    [Transaction.__exit__] (sort, validate, execute, then the database
    finalisation), the scoped acquisition of [Transaction.wrapper] and the
    five record-adding methods.

    Python strings are sequences of code points.  A [string] of this file is
    read as a Python [str] whose code points lie in U+0000..U+00FF, one
    [ascii] per code point.  Python integers are unbounded and the ones met
    here are never negative: they are modelled in [N]. *)

From Stdlib Require Import List String Ascii Arith NArith Bool Lia.
From Stdlib Require Import Permutation Sorted.
Import ListNotations.

Set Implicit Arguments.

Local Open Scope string_scope.
Local Open Scope list_scope.

(** ** Exceptions and fallible results *)

(** The exceptions that can cross the coordinator.  [ValueError] and
    [TypeError] are Python's own; the other ones are raised by the
    collaborators or by the caller's code. *)
Inductive exn : Type :=
| ValueError
| TypeError
| ValidationError (msg : string)
| ExecutionError (msg : string)
| OtherError (msg : string).

(** [inl e]: the computation raised [e]; [inr a]: it returned [a]. *)
Definition result (A : Type) : Type := (exn + A)%type.

Definition rbind {A B : Type} (r : result A) (k : A -> result B) : result B :=
  match r with
  | inl e => inl e
  | inr a => k a
  end.

Fixpoint rmap {A B : Type} (f : A -> result B) (l : list A) : result (list B) :=
  match l with
  | [] => inr []
  | x :: l' =>
      rbind (f x) (fun y => rbind (rmap f l') (fun ys => inr (y :: ys)))
  end.

(** ** Characters of a [str] *)

Definition code (c : ascii) : N := N_of_ascii c.

(** [\d] of a [str] pattern matches the characters of Unicode category Nd;
    below U+0100 these are '0'..'9'. *)
Definition re_digit (c : ascii) : bool :=
  ((48 <=? code c) && (code c <=? 57))%N.

(** The characters [str.isdigit] accepts: the decimal ones and the digits
    "that need special handling, such as the compatibility superscript
    digits"; below U+0100 these are U+00B2, U+00B3 and U+00B9. *)
Definition isdigit_char (c : ascii) : bool :=
  re_digit c || (code c =? 178)%N || (code c =? 179)%N || (code c =? 185)%N.

Definition chars (s : string) : list ascii := list_ascii_of_string s.

(** [c.isdigit()]: at least one character, and all of them digits. *)
Definition isdigit (s : string) : bool :=
  match chars s with
  | [] => false
  | cs => forallb isdigit_char cs
  end.

Definition digit_value (c : ascii) : N := (code c - 48)%N.

(** [sys.int_info.default_max_str_digits]: the longest string of digits
    [int] converts (CPython 3.11, and the later releases of 3.7 to 3.10);
    leading zeros count. *)
Definition int_max_str_digits : N := 4300.

(** [int(c)] for a [c] without sign, blank or underscore (the only ones
    [natural_keys] passes, under [c.isdigit()]): the decimal value when every
    character is a decimal digit and there are no more of them than [int]
    converts, [ValueError] otherwise. *)
Definition py_int (s : string) : result N :=
  match chars s with
  | [] => inl ValueError
  | cs =>
      if forallb re_digit cs &&
         (N.of_nat (List.length cs) <=? int_max_str_digits)%N
      then inr (fold_left (fun acc c => (10 * acc + digit_value c)%N) cs 0%N)
      else inl ValueError
  end.

(** ** [re.split('(\d+)', text)] *)

(** A left-to-right scan.  [in_digits] tells whether the run being read,
    [cur], is a match of [\d+]; a match is extended as far as possible, and
    the capturing group puts every match into the result, between the
    pieces of text around it. *)
Fixpoint split_runs (in_digits : bool) (cur : string) (text : string)
  : list string :=
  match text with
  | EmptyString => if in_digits then [cur; ""] else [cur]
  | String c rest =>
      if Bool.eqb (re_digit c) in_digits
      then split_runs in_digits (cur ++ String c "") rest
      else cur :: split_runs (re_digit c) (String c "") rest
  end.

Definition re_split_digits (text : string) : list string :=
  split_runs false "" text.

(** ** [natural_keys] *)

(** An element of a key: [c] itself, a [str], or [int(c)]. *)
Inductive token : Type :=
| TStr (s : string)
| TInt (n : N).

Definition key : Type := list token.

Definition key_token (c : string) : result token :=
  if isdigit c then rbind (py_int c) (fun n => inr (TInt n)) else inr (TStr c).

Definition natural_keys (text : string) : result key :=
  rmap key_token (re_split_digits text).

(** ** Comparison of keys, as [sorted] does it *)

(** [x == y]: an [int] and a [str] are different, without error. *)
Definition token_eqb (x y : token) : bool :=
  match x, y with
  | TStr s, TStr t => String.eqb s t
  | TInt m, TInt n => N.eqb m n
  | _, _ => false
  end.

(** [x < y]: strings by code points, integers by value; between an [int]
    and a [str] Python raises [TypeError]. *)
Definition token_lt (x y : token) : result bool :=
  match x, y with
  | TStr s, TStr t => inr (String.ltb s t)
  | TInt m, TInt n => inr (N.ltb m n)
  | _, _ => inl TypeError
  end.

(** [a < b] on lists: the first index where the elements differ decides,
    and without one the shorter list is the smaller. *)
Fixpoint key_lt (a b : key) : result bool :=
  match a, b with
  | [], [] => inr false
  | [], _ :: _ => inr true
  | _ :: _, [] => inr false
  | x :: a', y :: b' =>
      if token_eqb x y then key_lt a' b' else token_lt x y
  end.

(** ** [sorted(queue, key=...)] *)

Section Sorted.
Variable A : Type.
Variable keyf : A -> result key.

(** The key is computed once for each element, in the order of the list,
    before any comparison. *)
Definition decorate (l : list A) : result (list (key * A)) :=
  rmap (fun x => rbind (keyf x) (fun k => inr (k, x))) l.

(** A stable insertion: [p] stood before every element of [l] in the
    input, and goes past the elements whose key is smaller than its
    own.  Only [<] is used, as in Python's sort. *)
Fixpoint insert (p : key * A) (l : list (key * A))
  : result (list (key * A)) :=
  match l with
  | [] => inr [p]
  | q :: l' =>
      rbind (key_lt (fst q) (fst p)) (fun b =>
        if b then rbind (insert p l') (fun r => inr (q :: r))
        else inr (p :: q :: l'))
  end.

Fixpoint isort (l : list (key * A)) : result (list (key * A)) :=
  match l with
  | [] => inr []
  | p :: l' => rbind (isort l') (insert p)
  end.

Definition sorted (l : list A) : result (list A) :=
  rbind (decorate l) (fun d =>
  rbind (isort d) (fun s => inr (map snd s))).
End Sorted.

(** ** Operation records

    The records carry the fields their constructors are given in
    [transaction.py].  A [PurePath] is identified with the string [str]
    gives for it. *)

Definition PurePath : Type := string.

Module RunEntry.
Record t : Type := mk {
  path : PurePath;
  full_command : string;
  commit : string;
  datetime : string;
  description : string;
  input_command : string
}.
End RunEntry.

Module Move.
Record t : Type := mk {
  src : PurePath;
  dest : PurePath;
  kill_tmux : bool
}.
End Move.

Module DescriptionChange.
Record t : Type := mk {
  path : PurePath;
  full_command : string;
  old_description : string;
  new_description : string
}.
End DescriptionChange.

(** What a queue holds: a [RunEntry], a [Move], a bare path (removal and
    interrupt) or a [DescriptionChange]. *)
Inductive item : Type :=
| ItemRun (r : RunEntry.t)
| ItemMove (m : Move.t)
| ItemPath (p : PurePath)
| ItemDescription (d : DescriptionChange.t).

(** ** The five sub-transactions *)

(** [TransactionType], the namedtuple: its fields in declaration order. *)
Module TransactionType.
Record t (A : Type) : Type := mk {
  description_change : A;
  interrupt : A;
  removal : A;
  move : A;
  new_run : A
}.
End TransactionType.

(** A position of the namedtuple. *)
Inductive kind : Type :=
| KDescriptionChange
| KInterrupt
| KRemoval
| KMove
| KNewRun.

(** Iterating over the namedtuple yields its fields in this order. *)
Definition fields : list kind :=
  [KDescriptionChange; KInterrupt; KRemoval; KMove; KNewRun].

Definition kind_index (k : kind) : nat :=
  match k with
  | KDescriptionChange => 0
  | KInterrupt => 1
  | KRemoval => 2
  | KMove => 3
  | KNewRun => 4
  end.

Definition kind_eqb (k k' : kind) : bool :=
  Nat.eqb (kind_index k) (kind_index k').

Definition get {A : Type} (k : kind) (t : TransactionType.t A) : A :=
  match k with
  | KDescriptionChange => TransactionType.description_change t
  | KInterrupt => TransactionType.interrupt t
  | KRemoval => TransactionType.removal t
  | KMove => TransactionType.move t
  | KNewRun => TransactionType.new_run t
  end.

Definition set {A : Type} (k : kind) (a : A) (t : TransactionType.t A)
  : TransactionType.t A :=
  TransactionType.mk
    (if kind_eqb k KDescriptionChange then a
     else TransactionType.description_change t)
    (if kind_eqb k KInterrupt then a else TransactionType.interrupt t)
    (if kind_eqb k KRemoval then a else TransactionType.removal t)
    (if kind_eqb k KMove then a else TransactionType.move t)
    (if kind_eqb k KNewRun then a else TransactionType.new_run t).

(** Modelled from the spec: [SubTransaction] (runs.transaction.sub_transaction)
    is not among the sources.  Its queue is "an ordered, mutable sequence of
    one operation kind's records, owned exclusively by its sub-transaction
    instance"; the collaborators it also refers to (ui, db, bash,
    file_system) are shared and live in the world below. *)
Record SubTransaction : Type := { queue : list item }.

(** ** Collaborators

    The database, the file system, the shell and the five concrete
    sub-transactions are not among the sources: what they do is a
    parameter.  [World] is the state they share; a call returns [Some e]
    when it raises [e] and [None] when it returns, with the world it
    leaves.  The record classes' [__str__] is a parameter as well.
    Following the spec, [validate] and [execute] read the queue and leave
    it as it is. *)
Record Collaborators : Type := {
  World : Type;
  run_entry_str : RunEntry.t -> string;
  move_str : Move.t -> string;
  description_change_str : DescriptionChange.t -> string;
  st_validate : kind -> list item -> World -> option exn * World;
  st_execute : kind -> item -> World -> option exn * World;
  db_enter : World -> option exn * World;
  db_exit : option exn -> World -> option exn * World
}.

(** What an instrumented run observes, with the outcome of each step
    ([None]: returned, [Some e]: raised [e]). *)
Inductive event : Type :=
| EvSort (k : kind) (r : option exn)
| EvValidate (k : kind) (q : list item) (r : option exn)
| EvExecute (k : kind) (x : item) (r : option exn)
| EvDbEnter (r : option exn)
| EvDbExit (args : option exn) (r : option exn).

Definition outcome (ev : event) : option exn :=
  match ev with
  | EvSort _ r => r
  | EvValidate _ _ r => r
  | EvExecute _ _ r => r
  | EvDbEnter r => r
  | EvDbExit _ r => r
  end.

Definition is_sort (ev : event) : bool :=
  match ev with EvSort _ _ => true | _ => false end.
Definition is_validate (ev : event) : bool :=
  match ev with EvValidate _ _ _ => true | _ => false end.
Definition is_execute (ev : event) : bool :=
  match ev with EvExecute _ _ _ => true | _ => false end.
Definition is_db_exit (ev : event) : bool :=
  match ev with EvDbExit _ _ => true | _ => false end.

(** The kind a phase event belongs to. *)
Definition event_kind (ev : event) : option kind :=
  match ev with
  | EvSort k _ => Some k
  | EvValidate k _ _ => Some k
  | EvExecute k _ _ => Some k
  | _ => None
  end.

(** The [execute] calls of a trace, in order. *)
Fixpoint execute_calls (t : list event) : list (kind * item) :=
  match t with
  | [] => []
  | EvExecute k x _ :: t' => (k, x) :: execute_calls t'
  | _ :: t' => execute_calls t'
  end.

Section Coordinator.
Variable C : Collaborators.

(** [str(x)] of a queued record. *)
Definition str (x : item) : string :=
  match x with
  | ItemRun r => run_entry_str C r
  | ItemMove m => move_str C m
  | ItemPath p => p
  | ItemDescription d => description_change_str C d
  end.

(** [sorted(st.queue, key=lambda x: natural_keys(str(x)))] *)
Definition sort_queue (q : list item) : result (list item) :=
  sorted (fun x => natural_keys (str x)) q.

(** The transaction object, the world of its collaborators and the
    trace of the instrumented run. *)
Record State : Type := {
  sub_transactions : TransactionType.t SubTransaction;
  world : World C;
  log : list event
}.

Definition queue_of (k : kind) (s : State) : list item :=
  queue (get k (sub_transactions s)).

Definition set_queue (k : kind) (q : list item) (s : State) : State :=
  {| sub_transactions := set k {| queue := q |} (sub_transactions s);
     world := world s;
     log := log s |}.

Definition record_event (ev : event) (s : State) : State :=
  {| sub_transactions := sub_transactions s;
     world := world s;
     log := log s ++ [ev] |}.

(** State passing with exceptions: the state reached is kept when an
    exception is raised. *)
Definition M (A : Type) : Type := State -> result A * State.

Definition ret {A : Type} (a : A) : M A := fun s => (inr a, s).

Definition raise {A : Type} (e : exn) : M A := fun s => (inl e, s).

Definition bind {A B : Type} (m : M A) (k : A -> M B) : M B :=
  fun s =>
    match m s with
    | (inl e, s') => (inl e, s')
    | (inr a, s') => k a s'
    end.

Fixpoint for_each {X : Type} (l : list X) (body : X -> M unit) : M unit :=
  match l with
  | [] => ret tt
  | x :: l' => bind (body x) (fun _ => for_each l' body)
  end.

(** A call to a collaborator: the world moves, the call is recorded with
    its outcome, and what it raises propagates. *)
Definition call (ev : option exn -> event)
           (f : World C -> option exn * World C) : M unit :=
  fun s =>
    let (r, w) := f (world s) in
    let s' := {| sub_transactions := sub_transactions s;
                 world := w;
                 log := log s ++ [ev r] |} in
    match r with
    | Some e => (inl e, s')
    | None => (inr tt, s')
    end.

(** *** [Transaction.__exit__] *)

(** [sort(st)]: the queue is assigned only when [sorted] returns. *)
Definition sort (k : kind) : M unit :=
  fun s =>
    match sort_queue (queue_of k s) with
    | inl e => (inl e, record_event (EvSort k (Some e)) s)
    | inr q => (inr tt, record_event (EvSort k None) (set_queue k q s))
    end.

(** [validate(st)] *)
Definition validate (k : kind) : M unit :=
  fun s =>
    call (EvValidate k (queue_of k s)) (st_validate C k (queue_of k s)) s.

(** [execute(st)]: [for x in st.queue: st.execute(x)] *)
Definition execute (k : kind) : M unit :=
  fun s =>
    for_each (queue_of k s)
             (fun x => call (EvExecute k x) (st_execute C k x)) s.

(** [if sub_transaction.queue: process(sub_transaction)].  The assertion
    before it, [isinstance(sub_transaction, SubTransaction)], holds of every
    field of [sub_transactions] by its type. *)
Definition guarded (process : kind -> M unit) (k : kind) : M unit :=
  fun s =>
    match queue_of k s with
    | [] => ret tt s
    | _ :: _ => process k s
    end.

Definition phases : M unit :=
  for_each [sort; validate; execute]
           (fun process => for_each fields (guarded process)).

(** [args] is the exception the scope is left with, if any. *)
Definition __exit__ (args : option exn) : M unit :=
  bind phases (fun _ => call (EvDbExit args) (db_exit C args)).

(** *** [Transaction.__enter__] and the [with] statement *)

Definition __enter__ : M unit := call EvDbEnter (db_enter C).

(** [with transaction as open_transaction: return body].  [__exit__]
    has no [return]: what it gives back is [None], which never
    suppresses the exception of the body; an exception raised by
    [__exit__] itself replaces it. *)
Definition with_transaction {A : Type} (body : M A) : M A :=
  fun s =>
    match __enter__ s with
    | (inl e, s1) => (inl e, s1)
    | (inr _, s1) =>
        match body s1 with
        | (inr a, s2) =>
            match __exit__ None s2 with
            | (inl e', s3) => (inl e', s3)
            | (inr _, s3) => (inr a, s3)
            end
        | (inl e, s2) =>
            match __exit__ (Some e) s2 with
            | (inl e', s3) => (inl e', s3)
            | (inr _, s3) => (inl e, s3)
            end
        end
    end.

(** *** The record-adding methods *)

(** Modelled from the spec: [SubTransaction.add] is not among the
    sources; "[add(record)] appends [record] to the queue.  No validation
    performed at add time.  No side effects." *)
Definition add (k : kind) (x : item) : M unit :=
  fun s => (inr tt, set_queue k (queue_of k s ++ [x]) s).

Definition add_run (path : PurePath)
           (full_command commit datetime description input_command : string)
  : M unit :=
  add KNewRun
      (ItemRun (RunEntry.mk path full_command commit datetime description
                            input_command)).

Definition move (src dest : PurePath) (kill_tmux : bool) : M unit :=
  add KMove (ItemMove (Move.mk src dest kill_tmux)).

Definition remove (path : PurePath) : M unit :=
  add KRemoval (ItemPath path).

Definition interrupt (path : PurePath) : M unit :=
  add KInterrupt (ItemPath path).

Definition change_description (path : PurePath)
           (full_command old_description new_description : string)
  : M unit :=
  add KDescriptionChange
      (ItemDescription
         (DescriptionChange.mk path full_command old_description
                               new_description)).

(** *** [Transaction.wrapper] *)

(** What the wrapped function does with the open transaction: it calls
    record-adding methods, then returns a value or raises. *)
Inductive method_call : Type :=
| CallAddRun (path : PurePath)
             (full_command commit datetime description input_command
              : string)
| CallMove (src dest : PurePath) (kill_tmux : bool)
| CallRemove (path : PurePath)
| CallInterrupt (path : PurePath)
| CallChangeDescription (path : PurePath)
                        (full_command old_description new_description
                         : string).

Definition perform (c : method_call) : M unit :=
  match c with
  | CallAddRun p fc co dt de ic => add_run p fc co dt de ic
  | CallMove s d k => move s d k
  | CallRemove p => remove p
  | CallInterrupt p => interrupt p
  | CallChangeDescription p fc od nd => change_description p fc od nd
  end.

Record func (A : Type) : Type := {
  calls : list method_call;
  finish : result A
}.

Definition run_func {A : Type} (f : func A) : M A :=
  bind (for_each (calls f) perform) (fun _ s => (finish f, s)).

(** Modelled from the spec: [SubTransaction.__init__] is not among the
    sources; a queue is "populated only by [add]", so a new transaction
    has five empty queues. *)
Definition init (w : World C) : State :=
  {| sub_transactions :=
       TransactionType.mk {| queue := [] |} {| queue := [] |}
                          {| queue := [] |} {| queue := [] |}
                          {| queue := [] |};
     world := w;
     log := [] |}.

(** [_wrapper]: a new transaction, and the function inside its scope. *)
Definition wrapper {A : Type} (f : func A) (w : World C)
  : result A * State :=
  with_transaction (run_func f) (init w).

End Coordinator.

(** ** Vocabulary of the statements *)

(** A run of [re.split]: a match of [\d+] ([d = true]: decimal digits, at
    least one) or a piece of text between matches (no decimal digit). *)
Definition run_of (d : bool) (r : string) : Prop :=
  (d = true -> r <> "") /\ Forall (fun c => re_digit c = d) (chars r).

Fixpoint runs_alternate (d : bool) (l : list string) : Prop :=
  match l with
  | [] => True
  | r :: l' => run_of d r /\ runs_alternate (negb d) l'
  end.

(** A key whose elements are alternately [str] and [int];
    [int_first] tells which one comes first. *)
Fixpoint alternates (int_first : bool) (k : key) : bool :=
  match k with
  | [] => true
  | TStr _ :: k' => negb int_first && alternates true k'
  | TInt _ :: k' => int_first && alternates false k'
  end.

Definition same_type (x y : token) : bool :=
  match x, y with
  | TStr _, TStr _ => true
  | TInt _, TInt _ => true
  | _, _ => false
  end.

(** The order of the keys as a three-way comparison.  Between a [str] and
    an [int], where Python has no order, the [str] is put first: the keys
    of [natural_keys] never meet that case. *)
Definition token_compare (x y : token) : comparison :=
  match x, y with
  | TStr s, TStr t => String.compare s t
  | TInt m, TInt n => N.compare m n
  | TStr _, TInt _ => Lt
  | TInt _, TStr _ => Gt
  end.

Definition key_compare (a b : key) : comparison :=
  list_compare token_compare a b.

Definition key_le (a b : key) : Prop := key_compare a b <> Gt.

Definition is_lt (c : comparison) : bool :=
  match c with Lt => true | _ => false end.

(** The sort without its exceptions: a stable insertion sort on decorated
    elements. *)
Section StableSort.
Variable A : Type.

Fixpoint stable_insert (p : key * A) (l : list (key * A)) : list (key * A) :=
  match l with
  | [] => [p]
  | q :: l' =>
      if is_lt (key_compare (fst q) (fst p))
      then q :: stable_insert p l'
      else p :: q :: l'
  end.

Fixpoint stable_sort (l : list (key * A)) : list (key * A) :=
  match l with
  | [] => []
  | p :: l' => stable_insert p (stable_sort l')
  end.

Definition decorated_le (p q : key * A) : Prop := key_le (fst p) (fst q).

(** The elements of key [k]. *)
Definition has_key (k : key) (p : key * A) : bool :=
  match key_compare (fst p) k with Eq => true | _ => false end.

(** Every key has the shape [natural_keys] gives: a [str] first. *)
Definition shaped (l : list (key * A)) : Prop :=
  Forall (fun p => alternates false (fst p) = true) l.
End StableSort.

Section SortedBy.
Variable A : Type.
Variable keyf : A -> result key.

(** The keys of [x] and [y] are computed, and that of [y] is not the
    smaller one. *)
Definition ordered_by_key (x y : A) : Prop :=
  exists kx ky, keyf x = inr kx /\ keyf y = inr ky /\ key_le kx ky.

(** Every element stands with its own key. *)
Definition decorated (d : list (key * A)) : Prop :=
  Forall (fun p => keyf (snd p) = inr (fst p)) d.
End SortedBy.

(** ** Vocabulary of the traces *)

Definition nonempty (q : list item) : bool :=
  match q with [] => false | _ :: _ => true end.

Definition result_of (o : option exn) : result unit :=
  match o with Some e => inl e | None => inr tt end.

Section Queues.
Variable t : TransactionType.t SubTransaction.

Definition queue_in (k : kind) : list item := queue (get k t).

(** The kinds of [ks] whose queue is not empty. *)
Definition busy (ks : list kind) : list kind :=
  filter (fun k => nonempty (queue_in k)) ks.

(** The records of the kinds [ks], kind after kind, each queue in its
    order. *)
Definition pending (ks : list kind) : list (kind * item) :=
  flat_map (fun k => map (pair k) (queue_in k)) ks.

Definition validates_ok (ks : list kind) : list event :=
  map (fun k => EvValidate k (queue_in k) None) ks.
End Queues.

Definition sorts_ok (ks : list kind) : list event :=
  map (fun k => EvSort k None) ks.

Definition executes_ok (l : list (kind * item)) : list event :=
  map (fun p => EvExecute (fst p) (snd p) None) l.

Section Runs.
Variable C : Collaborators.

(** What the sort phase may have done to the queues so far: a queue is as
    it was, or it was not empty and is now what [sorted] returned. *)
Definition sort_step (t t' : TransactionType.t SubTransaction) : Prop :=
  forall k,
    queue_in t' k = queue_in t k \/
    (queue_in t k <> [] /\ sort_queue C (queue_in t k) = inr (queue_in t' k)).

(** What the sort step leaves in a queue that held [q]: what [sorted]
    returns, and [q] itself where [sorted] raises. *)
Definition sorted_or_kept (q : list item) : list item :=
  match sort_queue C q with
  | inr l => l
  | inl _ => q
  end.

(** What a completed sort phase has done. *)
Definition all_sorted (t t' : TransactionType.t SubTransaction) : Prop :=
  forall k,
    (queue_in t k = [] -> queue_in t' k = []) /\
    (queue_in t k <> [] -> sort_queue C (queue_in t k) = inr (queue_in t' k)).

(** The four ways [__exit__] can go, from the queues [t] it finds to the
    queues [t'] it leaves, with its result and the trace it adds. *)
Inductive exit_run (args : option exn)
          (t t' : TransactionType.t SubTransaction)
  : result unit -> list event -> Prop :=
| SortRaised (ks1 : list kind) (k : kind) (ks2 : list kind) (e : exn) :
    busy t fields = ks1 ++ k :: ks2 ->
    sort_queue C (queue_in t k) = inl e ->
    exit_run args t t' (inl e) (sorts_ok ks1 ++ [EvSort k (Some e)])
| ValidateRaised (ks1 : list kind) (k : kind) (ks2 : list kind) (e : exn) :
    all_sorted t t' ->
    busy t' fields = ks1 ++ k :: ks2 ->
    exit_run args t t' (inl e)
             (sorts_ok (busy t' fields) ++
              validates_ok t' ks1 ++ [EvValidate k (queue_in t' k) (Some e)])
| ExecuteRaised (l1 : list (kind * item)) (k : kind) (x : item)
                (l2 : list (kind * item)) (e : exn) :
    all_sorted t t' ->
    pending t' fields = l1 ++ (k, x) :: l2 ->
    exit_run args t t' (inl e)
             (sorts_ok (busy t' fields) ++
              validates_ok t' (busy t' fields) ++
              executes_ok l1 ++ [EvExecute k x (Some e)])
| Finalized (o : option exn) :
    all_sorted t t' ->
    exit_run args t t' (result_of o)
             (sorts_ok (busy t' fields) ++
              validates_ok t' (busy t' fields) ++
              executes_ok (pending t' fields) ++ [EvDbExit args o]).
End Runs.

(** ** Sample collaborators and inputs *)

(** Modelled from the spec: the record classes' [__str__] is not among the
    sources; the sort key is "derived from the record's path string" (for
    a move, the path it starts from).  The other collaborators keep no
    state here: [v] and [x] tell what [validate] and [execute] raise. *)
Definition path_collaborators (v : kind -> list item -> option exn)
           (x : kind -> item -> option exn) : Collaborators :=
  {| World := unit;
     run_entry_str := RunEntry.path;
     move_str := Move.src;
     description_change_str := DescriptionChange.path;
     st_validate := fun k q w => (v k q, w);
     st_execute := fun k i w => (x k i, w);
     db_enter := fun w => (None, w);
     db_exit := fun _ w => (None, w) |}.

(** Every [validate] and every [execute] returns. *)
Definition accepting : Collaborators :=
  path_collaborators (fun _ _ => None) (fun _ _ => None).

(** The removals are refused by [validate]. *)
Definition rejecting_removal : Collaborators :=
  path_collaborators
    (fun k _ =>
       match k with
       | KRemoval => Some (ValidationError "no such run")
       | _ => None
       end)
    (fun _ _ => None).

(** U+00B2, superscript two. *)
Definition superscript_two : string := String (ascii_of_N 178) "".

(** Three paths queued for removal, the last one named by a superscript
    digit. *)
Definition superscript_queue : list item :=
  [ItemPath "run-10"; ItemPath "run-2"; ItemPath superscript_two].

Definition run (path : PurePath) : RunEntry.t :=
  RunEntry.mk path "python train.py" "0a1b2c" "2018-01-01" "" "train".

(** A caller that queues two runs, the later path first, and returns. *)
Definition two_runs_caller : func unit :=
  {| calls := [CallAddRun "exp/10" "python train.py" "0a1b2c" "2018-01-01"
                          "" "train";
               CallAddRun "exp/1" "python train.py" "0a1b2c" "2018-01-01"
                          "" "train"];
     finish := inr tt |}.

(** A caller that queues one removal and fails. *)
Definition failing_caller : func unit :=
  {| calls := [CallRemove "exp/5"];
     finish := inl (OtherError "caller") |}.

(** The queues the two calls of [two_runs_caller] leave. *)
Definition two_runs_state : State accepting :=
  snd (for_each (calls two_runs_caller) (@perform accepting)
                (init accepting tt)).

(** A transaction with three removals queued. *)
Definition removals_state : State accepting :=
  set_queue KRemoval [ItemPath "run-10"; ItemPath "a"; ItemPath "run-2"]
            (init accepting tt).

Section Frame.
Variable C : Collaborators.

(** [s1] is [s] with [x] appended to the queue of kind [k], and nothing
    else changed: the other queues, the world of the collaborators and the
    trace are as they were. *)
Definition appended (k : kind) (x : item) (s s1 : State C) : Prop :=
  queue_of k s1 = queue_of k s ++ [x] /\
  (forall k', k' <> k -> queue_of k' s1 = queue_of k' s) /\
  world s1 = world s /\
  log s1 = log s.
End Frame.

(** ** Vocabulary of the further properties *)

(** A string [int] is not too long for. *)
Definition within_int_limit (r : string) : Prop :=
  (N.of_nat (String.length r) <= int_max_str_digits)%N.

(** [''.join(l)] *)
Definition join (l : list string) : string := fold_right append "" l.

(** The number a string of decimal digits writes, most significant digit
    first. *)
Definition digits_value (d : string) : N :=
  fold_left (fun acc c => (10 * acc + digit_value c)%N) (chars d) 0%N.

(** A text without any decimal digit. *)
Definition digitless (p : string) : Prop :=
  Forall (fun c => re_digit c = false) (chars p).

(** A non-empty string of decimal digits. *)
Definition decimal (d : string) : Prop :=
  d <> "" /\ Forall (fun c => re_digit c = true) (chars d).

(** The place of a step in the protocol: sort, validate, execute, then the
    database. *)
Definition phase_index (ev : event) : nat :=
  match ev with
  | EvSort _ _ => 0
  | EvValidate _ _ _ => 1
  | EvExecute _ _ _ => 2
  | EvDbEnter _ => 3
  | EvDbExit _ _ => 3
  end.

(** The kind a record-adding call queues for, and the record it builds. *)
Definition record_of (c : method_call) : kind * item :=
  match c with
  | CallAddRun p fc co dt de ic =>
      (KNewRun, ItemRun (RunEntry.mk p fc co dt de ic))
  | CallMove s d k => (KMove, ItemMove (Move.mk s d k))
  | CallRemove p => (KRemoval, ItemPath p)
  | CallInterrupt p => (KInterrupt, ItemPath p)
  | CallChangeDescription p fc od nd =>
      (KDescriptionChange,
       ItemDescription (DescriptionChange.mk p fc od nd))
  end.

(** The records the calls [cs] queue for the kind [k], in call order. *)
Definition queued (k : kind) (cs : list method_call) : list item :=
  map snd (filter (fun p => kind_eqb (fst p) k) (map record_of cs)).

Section KeyOf.
Variable C : Collaborators.

(** The records whose key is [k]. *)
Definition has_natural_key (k : key) (x : item) : bool :=
  match natural_keys (str C x) with
  | inr k' => match key_compare k' k with Eq => true | _ => false end
  | inl _ => false
  end.

(** In the string of [x] every character [str.isdigit] accepts is a decimal
    digit, and the string is not longer than [int] converts. *)
Definition plain (x : item) : Prop :=
  Forall (fun c => isdigit_char c = re_digit c) (chars (str C x)) /\
  within_int_limit (str C x).
End KeyOf.

(** A caller that queues operations of three kinds and returns. *)
Definition mixed_caller : func unit :=
  {| calls := [CallAddRun "exp/10" "python train.py" "0a1b2c" "2018-01-01"
                          "" "train";
               CallRemove "old/2";
               CallMove "exp/3" "exp/4" false;
               CallRemove "old/1"];
     finish := inr tt |}.

(** Collaborators whose database cannot be opened. *)
Definition closed_database : Collaborators :=
  {| World := unit;
     run_entry_str := RunEntry.path;
     move_str := Move.src;
     description_change_str := DescriptionChange.path;
     st_validate := fun _ _ w => (None, w);
     st_execute := fun _ _ w => (None, w);
     db_enter := fun w => (Some (OtherError "unable to open database file"), w);
     db_exit := fun _ w => (None, w) |}.

(** ** Two scenarios as the spec words them *)

(** The new-run [validate] refuses what is queued. *)
Definition rejecting_new_run : Collaborators :=
  path_collaborators
    (fun k _ =>
       match k with
       | KNewRun => Some (ValidationError "run exists")
       | _ => None
       end)
    (fun _ _ => None).

(** Every [validate] returns; [execute] fails on the run "exp/1". *)
Definition failing_first_execute : Collaborators :=
  path_collaborators
    (fun _ _ => None)
    (fun _ x =>
       match x with
       | ItemRun r =>
           if String.eqb (RunEntry.path r) "exp/1"
           then Some (ExecutionError "cannot create directory")
           else None
       | _ => None
       end).

(** Every [validate] and [execute] returns; [self.db.__exit__] raises. *)
Definition failing_db_exit : Collaborators :=
  {| World := unit;
     run_entry_str := RunEntry.path;
     move_str := Move.src;
     description_change_str := DescriptionChange.path;
     st_validate := fun _ _ w => (None, w);
     st_execute := fun _ _ w => (None, w);
     db_enter := fun w => (None, w);
     db_exit := fun _ w => (Some (OtherError "database is locked"), w) |}.

Section Worded.
Variable C : Collaborators.

(** A transaction with the runs "exp/10" and "exp/1" queued, in that
    order, and nothing else. *)
Definition two_runs_queued (w : World C) : State C :=
  set_queue KNewRun [ItemRun (run "exp/10"); ItemRun (run "exp/1")]
            (init C w).

(** The scenario of the two new runs without a condition on the
    collaborators: whatever [validate] and [execute] do, [execute] is
    called for "exp/1" and then for "exp/10", and for nothing else. *)
Definition two_new_runs_unconditionally : Prop :=
  forall (args : option exn) (s : State C) (r1 r10 : RunEntry.t),
    RunEntry.path r1 = "exp/1" -> RunEntry.path r10 = "exp/10" ->
    (forall r, run_entry_str C r = RunEntry.path r) ->
    queue_of KNewRun s = [ItemRun r1; ItemRun r10] \/
    queue_of KNewRun s = [ItemRun r10; ItemRun r1] ->
    (forall k, k <> KNewRun -> queue_of k s = []) ->
    exists t,
      log (snd (__exit__ args s)) = log s ++ t /\
      execute_calls t = [(KNewRun, ItemRun r1); (KNewRun, ItemRun r10)].

(** The scoped-exit guarantee without a condition on the collaborators:
    whenever the wrapped function raises [e] in the open scope, the caller
    sees [e] and [self.db.__exit__] has been called exactly once. *)
Definition scoped_exit_unconditionally : Prop :=
  forall (f : func unit) (w : World C) (e : exn),
    finish f = inl e -> fst (db_enter C w) = None ->
    fst (@wrapper C unit f w) = inl e /\
    List.length (filter is_db_exit (log (snd (@wrapper C unit f w)))) = 1.
End Worded.

(** * Properties *)

Example natural_keys_run2 :
  natural_keys "run-2" = inr [TStr "run-"; TInt 2; TStr ""].
Proof. reflexivity. Qed.

Example natural_keys_run10 :
  natural_keys "run-10" = inr [TStr "run-"; TInt 10; TStr ""].
Proof. reflexivity. Qed.

Example natural_keys_empty : natural_keys "" = inr [TStr ""].
Proof. reflexivity. Qed.

Example natural_keys_superscript :
  natural_keys (String (ascii_of_N 178) "") = inl ValueError.
Proof. reflexivity. Qed.

Example sorted_three :
  sorted natural_keys ["run-10"; "a"; "run-2"; "run-02"]
  = inr ["a"; "run-2"; "run-02"; "run-10"].
Proof. reflexivity. Qed.

(** ** Results in [result] *)

Lemma rmap_inr (A B : Type) (f : A -> result B) (l : list A) (ys : list B) :
  rmap f l = inr ys -> Forall2 (fun x y => f x = inr y) l ys.
Proof.
  revert ys; induction l as [|x l IH]; simpl; intros ys H.
  - injection H as <-. constructor.
  - destruct (f x) as [e|y] eqn:Hx; simpl in H; [discriminate|].
    destruct (rmap f l) as [e|ys'] eqn:Hl; simpl in H; [discriminate|].
    injection H as <-. constructor; auto.
Qed.

Lemma rmap_inl (A B : Type) (f : A -> result B) (l : list A) (e : exn) :
  rmap f l = inl e -> exists x, In x l /\ f x = inl e.
Proof.
  induction l as [|x l IH]; simpl; intros H; [discriminate|].
  destruct (f x) as [e'|y] eqn:Hx; simpl in H.
  - injection H as ->. exists x; auto.
  - destruct (rmap f l) as [e'|ys'] eqn:Hl; simpl in H; [|discriminate].
    injection H as ->. destruct (IH eq_refl) as (x' & Hin & Hx').
    exists x'; auto.
Qed.

Lemma rmap_total (A B : Type) (f : A -> result B) (l : list A) :
  Forall (fun x => exists y, f x = inr y) l -> exists ys, rmap f l = inr ys.
Proof.
  induction 1 as [|x l (y & Hy) _ (ys & IH)]; simpl.
  - eexists; reflexivity.
  - rewrite Hy, IH. simpl. eexists; reflexivity.
Qed.

(** ** The runs of [re.split] and the types of a key *)

Lemma chars_append (s t : string) :
  chars (s ++ t)%string = chars s ++ chars t.
Proof.
  unfold chars. induction s as [|c s IH]; simpl; [reflexivity|].
  now rewrite IH.
Qed.

Lemma append_nonempty (s : string) (c : ascii) :
  (s ++ String c "")%string <> "".
Proof. destruct s; simpl; discriminate. Qed.

Lemma split_runs_alternate (text cur : string) (d : bool) :
  run_of d cur -> runs_alternate d (split_runs d cur text).
Proof.
  revert cur d; induction text as [|c rest IH]; intros cur d Hcur; simpl.
  - destruct d; simpl; repeat split; auto;
      try (apply Hcur); try discriminate; constructor.
  - destruct (Bool.eqb (re_digit c) d) eqn:Hc.
    + apply IH. apply Bool.eqb_prop in Hc. split.
      * intros _. apply append_nonempty.
      * rewrite chars_append. apply Forall_app. split; [apply Hcur|].
        simpl. constructor; auto.
    + apply Bool.eqb_false_iff in Hc. simpl. split; [exact Hcur|].
      assert (Hneg : re_digit c = negb d)
        by (destruct (re_digit c), d; simpl; congruence).
      rewrite <- Hneg. apply IH. split; [discriminate|].
      simpl. constructor; auto.
Qed.

Lemma re_split_digits_alternate (text : string) :
  runs_alternate false (re_split_digits text).
Proof.
  apply split_runs_alternate. split; [discriminate|constructor].
Qed.

Lemma re_digit_isdigit_char (c : ascii) :
  re_digit c = true -> isdigit_char c = true.
Proof. unfold isdigit_char. now intros ->. Qed.

(** A match of [\d+] becomes an [int], unless [int] refuses it. *)
Lemma key_token_digits (r : string) (x : token) :
  run_of true r -> key_token r = inr x -> exists n, x = TInt n.
Proof.
  intros [Hne Hall]. unfold key_token, isdigit.
  destruct (chars r) as [|c cs] eqn:Hr.
  - exfalso. apply Hne; [reflexivity|].
    destruct r; [reflexivity|discriminate].
  - assert (H2 : forallb isdigit_char (c :: cs) = true)
      by (apply forallb_forall; intros y Hy; apply re_digit_isdigit_char;
          exact (proj1 (Forall_forall _ _) Hall y Hy)).
    rewrite H2. destruct (py_int r) as [e|n]; simpl; [discriminate|].
    intros H. injection H as <-. now exists n.
Qed.

(** A piece of text between matches stays a [str], unless [int] refuses
    it. *)
Lemma key_token_text (r : string) (x : token) :
  run_of false r -> key_token r = inr x -> x = TStr r.
Proof.
  intros [_ Hall]. unfold key_token, isdigit, py_int.
  destruct (chars r) as [|c cs] eqn:Hr.
  - intros H; now injection H as <-.
  - destruct (forallb isdigit_char (c :: cs)).
    + assert (Hc : re_digit c = false) by (inversion Hall; assumption).
      cbn [forallb]. rewrite Hc. simpl. discriminate.
    + intros H; now injection H as <-.
Qed.

Lemma key_token_text_exn (r : string) (e : exn) :
  key_token r = inl e -> e = ValueError.
Proof.
  unfold key_token, py_int.
  destruct (isdigit r); [|discriminate].
  destruct (chars r); simpl; [congruence|].
  match goal with |- context [if ?b then _ else _] => destruct b end;
    simpl; congruence.
Qed.

Lemma rmap_key_token_alternates (l : list string) (d : bool) (k : key) :
  runs_alternate d l -> rmap key_token l = inr k -> alternates d k = true.
Proof.
  revert d k; induction l as [|r l IH]; simpl; intros d k Hl H.
  - now injection H as <-.
  - destruct Hl as [Hr Hl].
    destruct (key_token r) as [e|x] eqn:Hx; simpl in H; [discriminate|].
    destruct (rmap key_token l) as [e|k'] eqn:Hk; simpl in H; [discriminate|].
    injection H as <-. specialize (IH _ _ Hl eq_refl).
    destruct d.
    + destruct (key_token_digits Hr Hx) as (n & ->). simpl. exact IH.
    + rewrite (key_token_text Hr Hx). simpl. exact IH.
Qed.

Lemma natural_keys_alternates (text : string) (k : key) :
  natural_keys text = inr k -> alternates false k = true.
Proof.
  apply rmap_key_token_alternates, re_split_digits_alternate.
Qed.

Lemma natural_keys_exn (text : string) (e : exn) :
  natural_keys text = inl e -> e = ValueError.
Proof.
  intros H. apply rmap_inl in H. destruct H as (r & _ & H).
  exact (key_token_text_exn _ H).
Qed.

Lemma alternates_nth (k : key) (d : bool) (i : nat) (x : token) :
  alternates d k = true -> nth_error k i = Some x ->
  if Bool.eqb (Nat.odd i) d then exists s, x = TStr s
  else exists n, x = TInt n.
Proof.
  revert d i; induction k as [|y k IH]; intros d i Hk Hi.
  - destruct i; discriminate.
  - destruct i as [|i].
    + simpl in Hi. injection Hi as ->.
      destruct x, d; simpl in *; try discriminate; eexists; reflexivity.
    + simpl in Hi.
      assert (Hk' : alternates (negb d) k = true)
        by (destruct y, d; simpl in *; try discriminate; assumption).
      specialize (IH _ _ Hk' Hi).
      rewrite Nat.odd_succ, <- Nat.negb_odd.
      destruct (Nat.odd i), d; simpl in *; exact IH.
Qed.

(** ** The order of the keys *)

Lemma string_compare_trans (c : comparison) (x y z : string) :
  String.compare x y = c -> String.compare y z = c -> String.compare x z = c.
Proof.
  revert y z; induction x as [|a x IH]; intros [|b y] [|d z]; simpl;
    try congruence.
  unfold Ascii.compare.
  destruct (N.compare_spec (N_of_ascii a) (N_of_ascii b)) as [E1|L1|G1];
    destruct (N.compare_spec (N_of_ascii b) (N_of_ascii d)) as [E2|L2|G2];
    try congruence.
  - rewrite E1, E2, N.compare_refl. apply IH.
  - rewrite E1. rewrite (proj2 (N.compare_lt_iff _ _) L2). congruence.
  - rewrite E1. rewrite (proj2 (N.compare_gt_iff _ _) G2). congruence.
  - rewrite <- E2. rewrite (proj2 (N.compare_lt_iff _ _) L1). congruence.
  - assert (L : (N_of_ascii a < N_of_ascii d)%N) by lia.
    rewrite (proj2 (N.compare_lt_iff _ _) L). congruence.
  - rewrite <- E2. rewrite (proj2 (N.compare_gt_iff _ _) G1). congruence.
  - assert (L : (N_of_ascii d < N_of_ascii a)%N) by lia.
    rewrite (proj2 (N.compare_gt_iff _ _) L). congruence.
Qed.

Lemma string_compare_refl (x : string) : String.compare x x = Eq.
Proof.
  induction x as [|a x IH]; simpl; [reflexivity|].
  unfold Ascii.compare. now rewrite N.compare_refl.
Qed.

Lemma token_compare_eq (x y : token) : token_compare x y = Eq <-> x = y.
Proof.
  destruct x as [s|m], y as [t|n]; simpl; split; intros H;
    try discriminate.
  - now rewrite (String.compare_eq_iff _ _ H).
  - injection H as ->. apply string_compare_refl.
  - now rewrite (proj1 (N.compare_eq_iff _ _) H).
  - injection H as ->. apply N.compare_refl.
Qed.

Lemma token_compare_antisym (x y : token) :
  token_compare y x = CompOpp (token_compare x y).
Proof.
  destruct x, y; simpl; auto using String.compare_antisym, N.compare_antisym.
Qed.

Lemma token_compare_trans (x y z : token) (c : comparison) :
  token_compare x y = c -> token_compare y z = c -> token_compare x z = c.
Proof.
  destruct x as [s|m], y as [t|n], z as [u|p]; simpl; try congruence.
  - apply string_compare_trans.
  - destruct c; intros H1 H2.
    + apply N.compare_eq_iff in H1, H2. subst. apply N.compare_refl.
    + rewrite N.compare_lt_iff in *. lia.
    + rewrite N.compare_gt_iff in *. lia.
Qed.

Lemma key_compare_eq (a b : key) : key_compare a b = Eq <-> a = b.
Proof. apply list_compare_refl, token_compare_eq. Qed.

Lemma key_compare_antisym (a b : key) :
  key_compare b a = CompOpp (key_compare a b).
Proof.
  apply list_compare_antisym.
  - apply token_compare_eq.
  - apply token_compare_antisym.
Qed.

Lemma key_compare_trans (a b c : key) (r : comparison) :
  key_compare a b = r -> key_compare b c = r -> key_compare a c = r.
Proof.
  apply list_compare_trans.
  - apply token_compare_eq.
  - apply token_compare_trans.
  - apply token_compare_antisym.
Qed.

Lemma key_le_refl (a : key) : key_le a a.
Proof.
  unfold key_le. now rewrite (proj2 (key_compare_eq a a) eq_refl).
Qed.

Lemma key_le_trans (a b c : key) : key_le a b -> key_le b c -> key_le a c.
Proof.
  unfold key_le. intros H1 H2.
  destruct (key_compare a b) eqn:E1; [| |congruence].
  - apply key_compare_eq in E1. now subst.
  - destruct (key_compare b c) eqn:E2; [| |congruence].
    + apply key_compare_eq in E2. subst. now rewrite E1.
    + now rewrite (key_compare_trans _ _ _ E1 E2).
Qed.

Lemma not_lt_key_le (a b : key) :
  is_lt (key_compare a b) = false -> key_le b a.
Proof.
  unfold key_le. rewrite (key_compare_antisym a b).
  destruct (key_compare a b); simpl; congruence.
Qed.

Lemma lt_key_le (a b : key) : is_lt (key_compare a b) = true -> key_le a b.
Proof. unfold key_le. destruct (key_compare a b); simpl; congruence. Qed.

(** On keys of the same shape, Python's [<] is that order and raises
    nothing. *)
Lemma key_lt_compare (a b : key) (d : bool) :
  alternates d a = true -> alternates d b = true ->
  key_lt a b = inr (is_lt (key_compare a b)).
Proof.
  revert b d; induction a as [|x a IH]; intros [|y b] d Ha Hb; simpl;
    try reflexivity.
  unfold key_compare in *. simpl.
  destruct x as [s|m], y as [t|n], d; simpl in *; try discriminate.
  - destruct (String.eqb_spec s t) as [->|Hne].
    + rewrite string_compare_refl. eapply IH; eassumption.
    + unfold String.ltb.
      destruct (String.compare s t) eqn:E; try reflexivity.
      apply String.compare_eq_iff in E. contradiction.
  - rewrite N.eqb_compare.
    destruct (N.compare m n) eqn:E; simpl.
    + eapply IH; eassumption.
    + now rewrite (proj2 (N.ltb_lt _ _) (proj1 (N.compare_lt_iff _ _) E)).
    + apply N.compare_gt_iff in E.
      now rewrite (proj2 (N.ltb_ge _ _) (N.lt_le_incl _ _ E)).
Qed.

(** ** The stable sort *)

Section StableSortFacts.
Variable A : Type.
Implicit Types (p q : key * A) (l : list (key * A)).

Lemma stable_insert_perm p l : Permutation (p :: l) (stable_insert p l).
Proof.
  induction l as [|q l IH]; simpl; [reflexivity|].
  destruct (is_lt (key_compare (fst q) (fst p))); [|reflexivity].
  rewrite perm_swap. now constructor.
Qed.

Lemma stable_sort_perm l : Permutation l (stable_sort l).
Proof.
  induction l as [|p l IH]; simpl; [reflexivity|].
  rewrite <- stable_insert_perm. now constructor.
Qed.

Lemma stable_insert_hd p q l :
  decorated_le q p -> HdRel (@decorated_le A) q l ->
  HdRel (@decorated_le A) q (stable_insert p l).
Proof.
  intros Hqp Hl. destruct l as [|r l]; simpl.
  - now constructor.
  - destruct (is_lt (key_compare (fst r) (fst p))); constructor; auto.
    now inversion Hl.
Qed.

Lemma stable_insert_sorted p l :
  Sorted (@decorated_le A) l -> Sorted (@decorated_le A) (stable_insert p l).
Proof.
  induction 1 as [|q l Hl IH Hq]; simpl.
  - repeat constructor.
  - destruct (is_lt (key_compare (fst q) (fst p))) eqn:E.
    + constructor; [exact IH|].
      apply stable_insert_hd; [|exact Hq]. now apply lt_key_le.
    + constructor; [now constructor|]. constructor.
      now apply not_lt_key_le.
Qed.

Lemma stable_sort_sorted l : Sorted (@decorated_le A) (stable_sort l).
Proof.
  induction l as [|p l IH]; simpl; [constructor|].
  now apply stable_insert_sorted.
Qed.

Lemma decorated_le_trans : Relations_1.Transitive (@decorated_le A).
Proof. intros p q r. apply key_le_trans. Qed.

Lemma stable_sort_strongly_sorted l :
  StronglySorted (@decorated_le A) (stable_sort l).
Proof.
  apply Sorted_StronglySorted; [exact decorated_le_trans|].
  apply stable_sort_sorted.
Qed.

(** A sorted list is left as it is. *)
Lemma stable_sort_of_sorted l :
  Sorted (@decorated_le A) l -> stable_sort l = l.
Proof.
  induction 1 as [|p l Hl IH Hp]; simpl; [reflexivity|].
  rewrite IH. destruct Hp as [|q l Hpq]; simpl; [reflexivity|].
  unfold decorated_le, key_le in Hpq.
  rewrite (key_compare_antisym (fst p) (fst q)).
  destruct (key_compare (fst p) (fst q)); simpl; congruence.
Qed.

(** Elements of equal key keep the order they had. *)
Lemma stable_insert_stable (k : key) p l :
  filter (has_key k) (stable_insert p l) = filter (has_key k) (p :: l).
Proof.
  induction l as [|q l IH]; [reflexivity|].
  simpl stable_insert.
  destruct (is_lt (key_compare (fst q) (fst p))) eqn:E; [|reflexivity].
  change (filter (has_key k) (q :: stable_insert p l))
    with (if has_key k q then q :: filter (has_key k) (stable_insert p l)
          else filter (has_key k) (stable_insert p l)).
  rewrite IH. simpl. unfold has_key.
  destruct (key_compare (fst p) k) eqn:Ep; try reflexivity.
  destruct (key_compare (fst q) k) eqn:Eq'; try reflexivity.
  apply key_compare_eq in Ep, Eq'. subst k.
  rewrite Eq', (proj2 (key_compare_eq _ _) eq_refl) in E. discriminate.
Qed.

Lemma stable_sort_stable (k : key) l :
  filter (has_key k) (stable_sort l) = filter (has_key k) l.
Proof.
  induction l as [|p l IH]; [reflexivity|].
  simpl stable_sort. rewrite stable_insert_stable. simpl. now rewrite IH.
Qed.

Lemma has_key_iff (k : key) p : has_key k p = true <-> fst p = k.
Proof.
  unfold has_key. destruct (key_compare (fst p) k) eqn:E; split; intros H;
    try discriminate; try reflexivity.
  - now apply key_compare_eq.
  - apply key_compare_eq in H. congruence.
  - apply key_compare_eq in H. congruence.
Qed.

Lemma In_filter_own_key p l : In p l -> In p (filter (has_key (fst p)) l).
Proof. intros H. apply filter_In. split; [exact H|]. now apply has_key_iff. Qed.

(** A sorted list is determined by the order of the elements of each key:
    two stable sorts of one list give the same result, whatever their
    algorithm. *)
Lemma stable_sorted_unique l1 l2 :
  StronglySorted (@decorated_le A) l1 ->
  StronglySorted (@decorated_le A) l2 ->
  (forall k, filter (has_key k) l1 = filter (has_key k) l2) ->
  l1 = l2.
Proof.
  intros H1. revert l2. induction H1 as [|p l1 Hs1 IH Hp]; intros l2 H2 Hf.
  - destruct l2 as [|q l2]; [reflexivity|].
    pose proof (In_filter_own_key q (q :: l2) (or_introl eq_refl)) as Hq.
    rewrite <- Hf in Hq. destruct Hq.
  - destruct l2 as [|q l2].
    + pose proof (In_filter_own_key p (p :: l1) (or_introl eq_refl)) as Hq.
      rewrite Hf in Hq. destruct Hq.
    + assert (Hpq : p = q).
      { pose proof (Hf (fst p)) as Hk. simpl in Hk.
        rewrite (proj2 (has_key_iff (fst p) p) eq_refl) in Hk.
        destruct (has_key (fst p) q) eqn:Hq; [now injection Hk|].
        exfalso.
        assert (Hin2 : In p l2).
        { assert (H : In p (filter (has_key (fst p)) l2))
            by (rewrite <- Hk; now left).
          now apply filter_In in H. }
        assert (Hin1 : In q l1).
        { pose proof (In_filter_own_key q (q :: l2) (or_introl eq_refl)) as H.
          rewrite <- Hf in H. apply filter_In in H. destruct H as [[->|H] _].
          - rewrite (proj2 (has_key_iff (fst q) q) eq_refl) in Hq.
            discriminate.
          - exact H. }
        inversion H2 as [|? ? _ Hq2]; subst.
        pose proof (proj1 (Forall_forall _ _) Hp q Hin1) as Hle1.
        pose proof (proj1 (Forall_forall _ _) Hq2 p Hin2) as Hle2.
        unfold decorated_le, key_le in Hle1, Hle2.
        rewrite (key_compare_antisym (fst p) (fst q)) in Hle2.
        destruct (key_compare (fst p) (fst q)) eqn:E;
          simpl in *; try congruence.
        apply key_compare_eq in E.
        rewrite (proj2 (has_key_iff (fst p) q) (eq_sym E)) in Hq.
        discriminate. }
      subst q. f_equal. apply IH.
      * now inversion H2.
      * intros k. specialize (Hf k). simpl in Hf.
        destruct (has_key k p); [now injection Hf|exact Hf].
Qed.

(** On decorated elements whose keys have the shape [natural_keys] gives,
    [insert] and [isort] raise nothing and are the stable sort. *)
Lemma insert_stable p l :
  shaped (p :: l) -> insert p l = inr (stable_insert p l).
Proof.
  intros H. inversion H as [|? ? Hp Hl]; subst. clear H.
  induction Hl as [|q l Hq Hl IH]; simpl; [reflexivity|].
  rewrite (@key_lt_compare _ _ false Hq Hp). simpl.
  destruct (is_lt (key_compare (fst q) (fst p))); [|reflexivity].
  now rewrite IH.
Qed.

Lemma isort_stable l : shaped l -> isort l = inr (stable_sort l).
Proof.
  induction 1 as [|p l Hp Hl IH]; simpl; [reflexivity|].
  rewrite IH. simpl. apply insert_stable. constructor; [exact Hp|].
  unfold shaped. now rewrite <- (stable_sort_perm l).
Qed.
End StableSortFacts.

(** ** [sorted] *)

Section SortedFacts.
Variable A : Type.
Variable keyf : A -> result key.
Hypothesis keyf_shape :
  forall x k, keyf x = inr k -> alternates false k = true.

Lemma decorate_inr (l : list A) (d : list (key * A)) :
  decorate keyf l = inr d -> map snd d = l /\ decorated keyf d.
Proof.
  unfold decorate. intros H. apply rmap_inr in H.
  induction H as [|x p l d Hx _ [IH1 IH2]]; simpl.
  - split; [reflexivity|constructor].
  - destruct (keyf x) as [e|k] eqn:Hk; simpl in Hx; [discriminate|].
    injection Hx as <-. simpl. split; [now rewrite IH1|].
    constructor; [exact Hk|exact IH2].
Qed.

Lemma decorate_decorated (d : list (key * A)) :
  decorated keyf d -> decorate keyf (map snd d) = inr d.
Proof.
  unfold decorate.
  induction 1 as [|[k x] d Hp _ IH]; simpl in *; [reflexivity|].
  now rewrite Hp, IH.
Qed.

Lemma decorated_shaped (d : list (key * A)) : decorated keyf d -> shaped d.
Proof.
  unfold decorated, shaped. apply Forall_impl. intros p. apply keyf_shape.
Qed.

Lemma sorted_inr (l l' : list A) :
  sorted keyf l = inr l' ->
  exists d, decorate keyf l = inr d /\ l' = map snd (stable_sort d).
Proof.
  unfold sorted. destruct (decorate keyf l) as [e|d] eqn:Hd; simpl;
    [discriminate|].
  destruct (decorate_inr _ Hd) as [_ Hdec].
  rewrite (isort_stable (decorated_shaped Hdec)). simpl.
  intros H. injection H as <-. now exists d.
Qed.

(** The only exceptions of [sorted] are those of the key function. *)
Lemma sorted_inl (l : list A) (e : exn) :
  sorted keyf l = inl e -> exists x, In x l /\ keyf x = inl e.
Proof.
  unfold sorted. destruct (decorate keyf l) as [e'|d] eqn:Hd; simpl.
  - intros H. injection H as ->. unfold decorate in Hd.
    apply rmap_inl in Hd. destruct Hd as (x & Hin & Hx).
    exists x. split; [exact Hin|].
    destruct (keyf x); simpl in Hx; [|discriminate].
    now injection Hx as ->.
  - destruct (decorate_inr _ Hd) as [_ Hdec].
    rewrite (isort_stable (decorated_shaped Hdec)). simpl. discriminate.
Qed.

Lemma sorted_total (l : list A) :
  Forall (fun x => exists k, keyf x = inr k) l ->
  exists l', sorted keyf l = inr l'.
Proof.
  intros H. unfold sorted.
  assert (Hd : exists d, decorate keyf l = inr d).
  { apply rmap_total. revert H. apply Forall_impl.
    intros x (k & Hk). rewrite Hk. simpl. eexists; reflexivity. }
  destruct Hd as (d & Hd). rewrite Hd. simpl.
  destruct (decorate_inr _ Hd) as [_ Hdec].
  rewrite (isort_stable (decorated_shaped Hdec)). simpl.
  eexists; reflexivity.
Qed.

Lemma sorted_perm (l l' : list A) :
  sorted keyf l = inr l' -> Permutation l l'.
Proof.
  intros H. destruct (sorted_inr _ H) as (d & Hd & ->).
  destruct (decorate_inr _ Hd) as [<- _].
  apply Permutation_map, stable_sort_perm.
Qed.

Lemma sorted_idempotent (l l' : list A) :
  sorted keyf l = inr l' -> sorted keyf l' = inr l'.
Proof.
  intros H. destruct (sorted_inr _ H) as (d & Hd & ->).
  destruct (decorate_inr _ Hd) as [_ Hdec].
  assert (Hdec' : decorated keyf (stable_sort d))
    by (unfold decorated; now rewrite <- (stable_sort_perm d)).
  unfold sorted. rewrite (decorate_decorated Hdec'). simpl.
  rewrite (isort_stable (decorated_shaped Hdec')). simpl.
  now rewrite (stable_sort_of_sorted (stable_sort_sorted d)).
Qed.

Lemma strongly_sorted_map (d : list (key * A)) :
  decorated keyf d -> StronglySorted (@decorated_le A) d ->
  StronglySorted (ordered_by_key keyf) (map snd d).
Proof.
  intros Hdec Hs. induction Hs as [|p d Hs IH Hp]; simpl; [constructor|].
  inversion Hdec as [|? ? Hkp Hdec']; subst.
  constructor; [now apply IH|].
  apply Forall_forall. intros y Hy. apply in_map_iff in Hy.
  destruct Hy as (q & <- & Hq).
  exists (fst p), (fst q). repeat split; [exact Hkp| |].
  - exact (proj1 (Forall_forall _ _) Hdec' q Hq).
  - exact (proj1 (Forall_forall _ _) Hp q Hq).
Qed.

Lemma sorted_strongly_sorted (l l' : list A) :
  sorted keyf l = inr l' -> StronglySorted (ordered_by_key keyf) l'.
Proof.
  intros H. destruct (sorted_inr _ H) as (d & Hd & ->).
  destruct (decorate_inr _ Hd) as [_ Hdec].
  apply strongly_sorted_map.
  - unfold decorated. now rewrite <- (stable_sort_perm d).
  - apply stable_sort_strongly_sorted.
Qed.

(** [sorted] gives what every stable sort of the decorated list gives:
    the insertion sort stands for Python's own algorithm. *)
Lemma sorted_any_stable_sort (l l' : list A) (d d' : list (key * A)) :
  sorted keyf l = inr l' -> decorate keyf l = inr d ->
  StronglySorted (@decorated_le A) d' ->
  (forall k, filter (has_key k) d' = filter (has_key k) d) ->
  map snd d' = l'.
Proof.
  intros H Hd Hs Hf. destruct (sorted_inr _ H) as (d0 & Hd0 & ->).
  rewrite Hd in Hd0. injection Hd0 as <-. f_equal.
  apply stable_sorted_unique; [exact Hs|apply stable_sort_strongly_sorted|].
  intros k. now rewrite stable_sort_stable.
Qed.

Lemma sorted_nonempty (l l' : list A) :
  sorted keyf l = inr l' -> l <> [] -> l' <> [].
Proof.
  intros H Hl ->. apply sorted_perm in H.
  apply Permutation_sym, Permutation_nil in H. contradiction.
Qed.
End SortedFacts.

Lemma strongly_sorted_nth (A : Type) (R : A -> A -> Prop) (l : list A)
      (i j : nat) (x y : A) :
  StronglySorted R l -> i < j ->
  nth_error l i = Some x -> nth_error l j = Some y -> R x y.
Proof.
  intros Hs. revert i j. induction Hs as [|a l Hs IH Ha]; intros i j Hij Hi Hj.
  - destruct i; discriminate.
  - destruct j as [|j]; [lia|]. simpl in Hj. destruct i as [|i].
    + simpl in Hi. injection Hi as ->.
      apply (proj1 (Forall_forall _ _) Ha). eapply nth_error_In; eassumption.
    + simpl in Hi. apply (IH i j); [lia|assumption|assumption].
Qed.

(** ** The namedtuple *)

Lemma get_set_same (A : Type) (k : kind) (a : A) (t : TransactionType.t A) :
  get k (set k a t) = a.
Proof. now destruct k. Qed.

Lemma get_set_other (A : Type) (k k' : kind) (a : A)
      (t : TransactionType.t A) :
  k <> k' -> get k' (set k a t) = get k' t.
Proof. destruct k, k'; intros H; try reflexivity; now contradiction H. Qed.

Lemma kind_eq_dec (k k' : kind) : {k = k'} + {k <> k'}.
Proof. decide equality. Qed.

Lemma nil_dec (A : Type) (q : list A) : q = [] \/ q <> [].
Proof. destruct q; [now left|now right]. Qed.

Lemma nonempty_true (q : list item) : nonempty q = true <-> q <> [].
Proof. destruct q; simpl; split; congruence. Qed.

Lemma busy_In (t : TransactionType.t SubTransaction) (ks : list kind)
      (k : kind) :
  In k (busy t ks) <-> In k ks /\ queue_in t k <> [].
Proof. unfold busy. now rewrite filter_In, nonempty_true. Qed.

Lemma busy_ext (t t' : TransactionType.t SubTransaction) (ks : list kind) :
  (forall k, queue_in t' k = [] <-> queue_in t k = []) ->
  busy t' ks = busy t ks.
Proof.
  intros H. unfold busy. apply filter_ext. intros k.
  specialize (H k). destruct (queue_in t' k), (queue_in t k); simpl; auto.
  - destruct H as [H _]. now specialize (H eq_refl).
  - destruct H as [_ H]. now specialize (H eq_refl).
Qed.

(** ** The phases of [__exit__] *)

Section CoordinatorFacts.
Variable C : Collaborators.
Implicit Types (s : State C) (k : kind) (ks : list kind).

Lemma bind_inv (A B : Type) (m : M C A) (f : A -> M C B) s
      (r : result B) s' :
  bind m f s = (r, s') ->
  (exists e, m s = (inl e, s') /\ r = inl e) \/
  (exists a s1, m s = (inr a, s1) /\ f a s1 = (r, s')).
Proof.
  unfold bind. destruct (m s) as [[e|a] s1]; intros H.
  - injection H as <- <-. left. now exists e.
  - right. now exists a, s1.
Qed.

Lemma call_inv (ev : option exn -> event)
      (f : World C -> option exn * World C) s (r : result unit) s' :
  call ev f s = (r, s') ->
  exists o, r = result_of o /\ sub_transactions s' = sub_transactions s /\
            world s' = snd (f (world s)) /\ o = fst (f (world s)) /\
            log s' = log s ++ [ev o].
Proof.
  unfold call. destruct (f (world s)) as [o w]. exists o.
  destruct o; injection H as <- <-; simpl; auto.
Qed.

Lemma sort_queue_shape (x : item) (k : key) :
  natural_keys (str C x) = inr k -> alternates false k = true.
Proof. apply natural_keys_alternates. Qed.

Lemma sort_queue_exn (q : list item) (e : exn) :
  sort_queue C q = inl e -> e = ValueError.
Proof.
  intros H. apply (@sorted_inl _ _ sort_queue_shape) in H.
  destruct H as (x & _ & H). exact (natural_keys_exn _ H).
Qed.

Lemma sort_queue_nil_iff (q q' : list item) :
  sort_queue C q = inr q' -> (q' = [] <-> q = []).
Proof.
  intros H. apply (@sorted_perm _ _ sort_queue_shape) in H. split; intros ->.
  - now apply Permutation_sym, Permutation_nil in H.
  - now apply Permutation_nil in H.
Qed.

Lemma sort_step_refl (t : TransactionType.t SubTransaction) :
  sort_step C t t.
Proof. intros k. now left. Qed.

Lemma sort_step_nil (t t' : TransactionType.t SubTransaction) k :
  sort_step C t t' -> (queue_in t' k = [] <-> queue_in t k = []).
Proof.
  intros H. destruct (H k) as [->|[_ Hs]]; [reflexivity|].
  exact (sort_queue_nil_iff _ Hs).
Qed.

Lemma sort_step_trans (t1 t2 t3 : TransactionType.t SubTransaction) :
  sort_step C t1 t2 -> sort_step C t2 t3 -> sort_step C t1 t3.
Proof.
  intros H12 H23 k.
  destruct (H12 k) as [E12|[N1 S12]], (H23 k) as [E23|[N2 S23]].
  - left. congruence.
  - right. rewrite <- E12. auto.
  - right. rewrite E23. auto.
  - right. split; [exact N1|].
    pose proof (@sorted_idempotent _ _ sort_queue_shape _ _ S12) as S22.
    unfold sort_queue in S23. rewrite S22 in S23. injection S23 as <-.
    exact S12.
Qed.
Lemma result_of_inl (o : option exn) (e : exn) :
  result_of o = inl e -> o = Some e.
Proof. destruct o; simpl; congruence. Qed.

Lemma result_of_inr (o : option exn) (a : unit) :
  result_of o = inr a -> o = None.
Proof. destruct o; simpl; congruence. Qed.

Lemma guarded_empty (process : kind -> M C unit) k s :
  queue_in (sub_transactions s) k = [] -> guarded process k s = (inr tt, s).
Proof. unfold guarded, queue_of, queue_in. now intros ->. Qed.

Lemma guarded_busy (process : kind -> M C unit) k s :
  queue_in (sub_transactions s) k <> [] -> guarded process k s = process k s.
Proof.
  unfold guarded, queue_of, queue_in.
  destruct (queue (get k (sub_transactions s))); congruence.
Qed.

Lemma busy_cons_empty (t : TransactionType.t SubTransaction) k ks :
  queue_in t k = [] -> busy t (k :: ks) = busy t ks.
Proof. unfold busy. simpl. now intros ->. Qed.

Lemma busy_cons_busy (t : TransactionType.t SubTransaction) k ks :
  queue_in t k <> [] -> busy t (k :: ks) = k :: busy t ks.
Proof. unfold busy. simpl. destruct (queue_in t k); simpl; congruence. Qed.

(** The validate phase over the kinds [ks]: the queues stay, and either
    every busy kind is validated, or the first failure ends the phase. *)
Lemma validate_phase ks s (r : result unit) s' :
  for_each ks (guarded (validate (C:=C))) s = (r, s') ->
  sub_transactions s' = sub_transactions s /\
  ((r = inr tt /\
    log s' = log s ++ validates_ok (sub_transactions s)
                                   (busy (sub_transactions s) ks)) \/
   (exists ks1 k ks2 e,
       busy (sub_transactions s) ks = ks1 ++ k :: ks2 /\ r = inl e /\
       log s' = log s ++ validates_ok (sub_transactions s) ks1 ++
                [EvValidate k (queue_in (sub_transactions s) k) (Some e)])).
Proof.
  revert s; induction ks as [|k ks IH]; intros s H.
  - injection H as <- <-. split; [reflexivity|]. left.
    split; [reflexivity|]. simpl. now rewrite app_nil_r.
  - simpl in H. destruct (nil_dec (queue_in (sub_transactions s) k)) as [Hq|Hq].
    + unfold bind in H. rewrite guarded_empty in H by exact Hq.
      rewrite busy_cons_empty by exact Hq. now apply IH.
    + rewrite busy_cons_busy by exact Hq.
      apply bind_inv in H. rewrite guarded_busy in H by exact Hq.
      destruct H as [(e & H & ->)|(a & s1 & H & Hrest)];
        apply call_inv in H; destruct H as (o & Ho & Hsub & _ & _ & Hlog).
      * symmetry in Ho. apply result_of_inl in Ho. subst o.
        split; [exact Hsub|]. right. exists [], k, (busy (sub_transactions s) ks), e.
        repeat split. exact Hlog.
      * symmetry in Ho. apply result_of_inr in Ho. subst o.
        apply IH in Hrest. rewrite Hsub, Hlog in Hrest.
        destruct Hrest as [Hsub' [[-> Hlog']|(ks1 & k' & ks2 & e & Hb & -> & Hlog')]].
        -- split; [exact Hsub'|]. left. split; [reflexivity|].
           rewrite Hlog', <- app_assoc. reflexivity.
        -- split; [exact Hsub'|]. right. exists (k :: ks1), k', ks2, e.
           rewrite Hb. repeat split.
           rewrite Hlog', <- app_assoc. reflexivity.
Qed.

Lemma executes_ok_app (l1 l2 : list (kind * item)) :
  executes_ok (l1 ++ l2) = executes_ok l1 ++ executes_ok l2.
Proof. apply map_app. Qed.

(** [for x in st.queue: st.execute(x)]: the records in order, up to the
    first one whose [execute] raises. *)
Lemma execute_loop k (q : list item) s (r : result unit) s' :
  for_each q (fun x => call (EvExecute k x) (st_execute C k x)) s = (r, s') ->
  sub_transactions s' = sub_transactions s /\
  ((r = inr tt /\ log s' = log s ++ executes_ok (map (pair k) q)) \/
   (exists q1 x q2 e,
       q = q1 ++ x :: q2 /\ r = inl e /\
       log s' = log s ++ executes_ok (map (pair k) q1) ++
                [EvExecute k x (Some e)])).
Proof.
  revert s; induction q as [|x q IH]; intros s H.
  - injection H as <- <-. split; [reflexivity|]. left.
    split; [reflexivity|]. simpl. now rewrite app_nil_r.
  - simpl in H. apply bind_inv in H.
    destruct H as [(e & H & ->)|(a & s1 & H & Hrest)];
      apply call_inv in H; destruct H as (o & Ho & Hsub & _ & _ & Hlog).
    + symmetry in Ho. apply result_of_inl in Ho. subst o.
      split; [exact Hsub|]. right. exists [], x, q, e.
      repeat split. exact Hlog.
    + symmetry in Ho. apply result_of_inr in Ho. subst o.
      apply IH in Hrest. rewrite Hsub, Hlog in Hrest.
      destruct Hrest
        as [Hsub' [[-> Hlog']|(q1 & x' & q2 & e & -> & -> & Hlog')]].
      * split; [exact Hsub'|]. left. split; [reflexivity|].
        rewrite Hlog', <- app_assoc. reflexivity.
      * split; [exact Hsub'|]. right. exists (x :: q1), x', q2, e.
        repeat split. rewrite Hlog', <- app_assoc. reflexivity.
Qed.

Lemma pending_cons (t : TransactionType.t SubTransaction) k ks :
  pending t (k :: ks) = map (pair k) (queue_in t k) ++ pending t ks.
Proof. reflexivity. Qed.

(** The execute phase over the kinds [ks]. *)
Lemma execute_phase ks s (r : result unit) s' :
  for_each ks (guarded (execute (C:=C))) s = (r, s') ->
  sub_transactions s' = sub_transactions s /\
  ((r = inr tt /\
    log s' = log s ++ executes_ok (pending (sub_transactions s) ks)) \/
   (exists l1 k x l2 e,
       pending (sub_transactions s) ks = l1 ++ (k, x) :: l2 /\ r = inl e /\
       log s' = log s ++ executes_ok l1 ++ [EvExecute k x (Some e)])).
Proof.
  revert s; induction ks as [|k ks IH]; intros s H.
  - injection H as <- <-. split; [reflexivity|]. left.
    split; [reflexivity|]. simpl. now rewrite app_nil_r.
  - simpl in H. rewrite pending_cons.
    destruct (nil_dec (queue_in (sub_transactions s) k)) as [Hq|Hq].
    + unfold bind in H. rewrite guarded_empty in H by exact Hq.
      rewrite Hq. simpl. now apply IH.
    + apply bind_inv in H. rewrite guarded_busy in H by exact Hq.
      destruct H as [(e & H & ->)|(a & s1 & H & Hrest)];
        apply execute_loop in H;
        destruct H as [Hsub [[Hr Hlog]|(q1 & x & q2 & e' & Hq' & Hr & Hlog)]];
        try discriminate.
      * injection Hr as <-. split; [exact Hsub|]. right.
        exists (map (pair k) q1), k, x,
               (map (pair k) q2 ++ pending (sub_transactions s) ks), e.
        repeat split; [|exact Hlog].
        unfold queue_in, queue_of in *. rewrite Hq', map_app, <- app_assoc.
        reflexivity.
      * apply IH in Hrest. rewrite Hsub, Hlog in Hrest.
        destruct Hrest
          as [Hsub' [[-> Hlog']|(l1 & k' & x & l2 & e & Hp & -> & Hlog')]].
        -- split; [exact Hsub'|]. left. split; [reflexivity|].
           rewrite Hlog', executes_ok_app, <- app_assoc. reflexivity.
        -- split; [exact Hsub'|]. right.
           exists (map (pair k) (queue_in (sub_transactions s) k) ++ l1),
                  k', x, l2, e.
           rewrite Hp. repeat split; [now rewrite <- app_assoc|].
           rewrite Hlog', executes_ok_app, <- !app_assoc. reflexivity.
Qed.

Lemma sort_inv k s (r : result unit) s' :
  sort k s = (r, s') ->
  world s' = world s /\
  ((exists q, sort_queue C (queue_in (sub_transactions s) k) = inr q /\
              r = inr tt /\
              sub_transactions s' =
                set k {| queue := q |} (sub_transactions s) /\
              log s' = log s ++ [EvSort k None]) \/
   (exists e, sort_queue C (queue_in (sub_transactions s) k) = inl e /\
              r = inl e /\ sub_transactions s' = sub_transactions s /\
              log s' = log s ++ [EvSort k (Some e)])).
Proof.
  unfold sort, queue_of, queue_in.
  destruct (sort_queue C (queue (get k (sub_transactions s)))) as [e|q];
    intros H; injection H as <- <-; simpl; split; try reflexivity.
  - right. now exists e.
  - left. now exists q.
Qed.

Lemma sort_step_set (t : TransactionType.t SubTransaction) k
      (q : list item) :
  queue_in t k <> [] -> sort_queue C (queue_in t k) = inr q ->
  sort_step C t (set k {| queue := q |} t).
Proof.
  intros Hne Hs k'. unfold queue_in in *.
  destruct (kind_eq_dec k k') as [<-|Hk].
  - right. now rewrite get_set_same.
  - left. now rewrite get_set_other.
Qed.

Lemma sort_step_kept (t1 t2 : TransactionType.t SubTransaction) k
      (q : list item) :
  sort_queue C q = inr (queue_in t1 k) -> sort_step C t1 t2 ->
  sort_queue C q = inr (queue_in t2 k).
Proof.
  intros Hs H. destruct (H k) as [->|[_ Hs2]]; [exact Hs|].
  pose proof (@sorted_idempotent _ _ sort_queue_shape _ _ Hs) as Hi.
  unfold sort_queue in Hs2. rewrite Hi in Hs2. injection Hs2 as <-.
  exact Hs.
Qed.

Lemma sort_step_busy (t t' : TransactionType.t SubTransaction) ks :
  sort_step C t t' -> busy t' ks = busy t ks.
Proof. intros H. apply busy_ext. intros k. now apply sort_step_nil. Qed.

(** The sort phase over the kinds [ks]. *)
Lemma sort_phase ks s (r : result unit) s' :
  for_each ks (guarded (sort (C:=C))) s = (r, s') ->
  world s' = world s /\
  sort_step C (sub_transactions s) (sub_transactions s') /\
  ((r = inr tt /\
    log s' = log s ++ sorts_ok (busy (sub_transactions s) ks) /\
    forall k, In k ks -> queue_in (sub_transactions s) k <> [] ->
              sort_queue C (queue_in (sub_transactions s) k)
              = inr (queue_in (sub_transactions s') k)) \/
   (exists ks1 k ks2 e,
       busy (sub_transactions s) ks = ks1 ++ k :: ks2 /\ r = inl e /\
       sort_queue C (queue_in (sub_transactions s) k) = inl e /\
       log s' = log s ++ sorts_ok ks1 ++ [EvSort k (Some e)])).
Proof.
  revert s; induction ks as [|k ks IH]; intros s H.
  - injection H as <- <-. split; [reflexivity|].
    split; [apply sort_step_refl|]. left.
    split; [reflexivity|]. simpl. rewrite app_nil_r. split; [reflexivity|].
    intros k [].
  - simpl in H. destruct (nil_dec (queue_in (sub_transactions s) k)) as [Hq|Hq].
    + unfold bind in H. rewrite guarded_empty in H by exact Hq.
      rewrite busy_cons_empty by exact Hq.
      destruct (IH _ H) as (Hw & Hstep & Hcases).
      split; [exact Hw|]. split; [exact Hstep|].
      destruct Hcases as [(-> & Hlog & Hall)|Hfail]; [left|now right].
      split; [reflexivity|]. split; [exact Hlog|].
      intros k' [<-|Hin] Hne; [contradiction|now apply Hall].
    + rewrite busy_cons_busy by exact Hq.
      apply bind_inv in H. rewrite guarded_busy in H by exact Hq.
      destruct H as [(e & H & ->)|(a & s1 & H & Hrest)];
        apply sort_inv in H;
        destruct H as [Hw [(q & Hs & Hr & Hsub & Hlog)
                          |(e' & Hs & Hr & Hsub & Hlog)]];
        try discriminate.
      * injection Hr as <-. split; [exact Hw|].
        split; [rewrite Hsub; apply sort_step_refl|]. right.
        exists [], k, (busy (sub_transactions s) ks), e.
        repeat split; assumption.
      * pose proof (@sort_step_set _ _ _ Hq Hs) as Hstep1. rewrite <- Hsub in Hstep1.
        destruct (IH _ Hrest) as (Hw' & Hstep & Hcases).
        split; [congruence|].
        split; [exact (@sort_step_trans _ _ _ Hstep1 Hstep)|].
        rewrite (@sort_step_busy _ _ ks Hstep1), Hlog in Hcases.
        destruct Hcases
          as [(-> & Hlog' & Hall)
             |(ks1 & k' & ks2 & e & Hb & -> & Hs' & Hlog')].
        -- left. split; [reflexivity|].
           split; [rewrite Hlog', <- app_assoc; reflexivity|].
           assert (Hk : sort_queue C (queue_in (sub_transactions s) k)
                        = inr (queue_in (sub_transactions s') k)).
           { apply sort_step_kept with (t1 := sub_transactions s1);
               [|exact Hstep].
             rewrite Hsub. unfold queue_in at 2. now rewrite get_set_same. }
           intros k' Hin Hne. destruct (kind_eq_dec k k') as [<-|Hkk'].
           ++ exact Hk.
           ++ destruct Hin as [Heq|Hin]; [contradiction|].
              assert (Hsame : queue_in (sub_transactions s1) k'
                              = queue_in (sub_transactions s) k')
                by (rewrite Hsub; unfold queue_in; now rewrite get_set_other).
              rewrite <- Hsame. apply Hall; [exact Hin|]. now rewrite Hsame.
        -- right. exists (k :: ks1), k', ks2, e. rewrite Hb.
           repeat split; [|rewrite Hlog', <- app_assoc; reflexivity].
           destruct (Hstep1 k') as [<-|[_ Hs1]]; [exact Hs'|].
           pose proof (@sorted_idempotent _ _ sort_queue_shape _ _ Hs1) as Hi.
           unfold sort_queue in Hs'. rewrite Hi in Hs'. discriminate.
Qed.

Lemma In_fields k : In k fields.
Proof. destruct k; simpl; auto 6. Qed.

Lemma phase_sorted (t t' : TransactionType.t SubTransaction) :
  sort_step C t t' ->
  (forall k, In k fields -> queue_in t k <> [] ->
             sort_queue C (queue_in t k) = inr (queue_in t' k)) ->
  all_sorted C t t'.
Proof.
  intros Hstep Hall k. split.
  - intros Hq. now apply (@sort_step_nil _ _ k Hstep).
  - apply Hall, In_fields.
Qed.

Lemma all_sorted_busy (t t' : TransactionType.t SubTransaction) ks :
  all_sorted C t t' -> busy t' ks = busy t ks.
Proof.
  intros H. apply busy_ext. intros k. destruct (H k) as [H1 H2]. split.
  - intros Hq'. destruct (nil_dec (queue_in t k)) as [Hq|Hq]; [exact Hq|].
    exact (proj1 (@sort_queue_nil_iff _ _ (H2 Hq)) Hq').
  - exact H1.
Qed.

Lemma phases_unfold :
  phases (C:=C) =
  bind (for_each fields (guarded (sort (C:=C)))) (fun _ =>
  bind (for_each fields (guarded (validate (C:=C)))) (fun _ =>
  bind (for_each fields (guarded (execute (C:=C)))) (fun _ => ret tt))).
Proof. reflexivity. Qed.

(** [__exit__] goes one of the four ways of [exit_run]. *)
Lemma exit_spec (args : option exn) s (r : result unit) s' :
  __exit__ args s = (r, s') ->
  exists t, log s' = log s ++ t /\
            exit_run C args (sub_transactions s) (sub_transactions s') r t /\
            sort_step C (sub_transactions s) (sub_transactions s').
Proof.
  unfold __exit__. rewrite phases_unfold. intros H.
  apply bind_inv in H.
  destruct H as [(e & H & ->)|([] & s4 & H & Hdb)].
  - (* a phase raised *)
    apply bind_inv in H.
    destruct H as [(e1 & H & He)|([] & s1 & Hsort & H)].
    + injection He as <-. apply sort_phase in H.
      destruct H
        as (_ & Hstep &
            [(Hr & _)|(ks1 & k & ks2 & e' & Hb & Hr & Hs & Hlog)]);
        [discriminate|].
      injection Hr as <-. eexists. split; [exact Hlog|].
      split; [|exact Hstep]. eapply SortRaised; eassumption.
    + apply sort_phase in Hsort.
      destruct Hsort
        as (_ & Hstep & [(_ & Hlog1 & Hall)|(? & ? & ? & ? & _ & Hr & _ & _)]);
        [|discriminate].
      pose proof (@phase_sorted _ _ Hstep Hall) as Hsorted.
      rewrite <- (@all_sorted_busy _ _ fields Hsorted) in Hlog1.
      apply bind_inv in H.
      destruct H as [(e1 & H & He)|([] & s2 & Hval & H)].
      * injection He as <-. apply validate_phase in H.
        destruct H as (Hsub & [(Hr & _)|(ks1 & k & ks2 & e' & Hb & Hr & Hlog)]);
          [discriminate|].
        injection Hr as <-. rewrite Hsub in *.
        eexists. split; [rewrite Hlog, Hlog1, <- app_assoc; reflexivity|].
        split; [|exact Hstep]. eapply ValidateRaised; eassumption.
      * apply validate_phase in Hval.
        destruct Hval as (Hsub2 & [(_ & Hlog2)|(? & ? & ? & ? & _ & Hr & _)]);
          [|discriminate].
        apply bind_inv in H.
        destruct H as [(e1 & H & He)|([] & s3 & Hex & H)];
          [|discriminate].
        injection He as <-. apply execute_phase in H.
        destruct H
          as (Hsub3 & [(Hr & _)|(l1 & k & x & l2 & e' & Hp & Hr & Hlog)]);
          [discriminate|].
        injection Hr as <-. rewrite Hsub3, Hsub2 in *.
        eexists. split;
          [rewrite Hlog, Hlog2, Hlog1, <- !app_assoc; reflexivity|].
        split; [|exact Hstep]. eapply ExecuteRaised; eassumption.
  - (* the three phases returned *)
    apply bind_inv in H.
    destruct H as [(? & _ & ?)|([] & s1 & Hsort & H)]; [discriminate|].
    apply bind_inv in H.
    destruct H as [(? & _ & ?)|([] & s2 & Hval & H)]; [discriminate|].
    apply bind_inv in H.
    destruct H as [(? & _ & ?)|([] & s3 & Hex & H)]; [discriminate|].
    injection H as <-.
    apply sort_phase in Hsort.
    destruct Hsort
      as (_ & Hstep & [(_ & Hlog1 & Hall)|(? & ? & ? & ? & _ & Hr & _ & _)]);
      [|discriminate].
    pose proof (@phase_sorted _ _ Hstep Hall) as Hsorted.
    rewrite <- (@all_sorted_busy _ _ fields Hsorted) in Hlog1.
    apply validate_phase in Hval.
    destruct Hval as (Hsub2 & [(_ & Hlog2)|(? & ? & ? & ? & _ & Hr & _)]);
      [|discriminate].
    apply execute_phase in Hex.
    destruct Hex as (Hsub3 & [(_ & Hlog3)|(? & ? & ? & ? & ? & _ & Hr & _)]);
      [|discriminate].
    apply call_inv in Hdb. destruct Hdb as (o & -> & Hsub4 & _ & _ & Hlog4).
    rewrite Hsub4, Hsub3, Hsub2 in *.
    eexists. split;
      [rewrite Hlog4, Hlog3, Hlog2, Hlog1, <- !app_assoc; reflexivity|].
    split; [|exact Hstep]. now apply Finalized.
Qed.
End CoordinatorFacts.

(** ** Traces *)

Lemma In_sorts_ok (ev : event) (ks : list kind) :
  In ev (sorts_ok ks) -> exists k, ev = EvSort k None /\ In k ks.
Proof.
  unfold sorts_ok. rewrite in_map_iff. intros (k & <- & Hk). now exists k.
Qed.

Lemma In_validates_ok (t : TransactionType.t SubTransaction) (ev : event)
      (ks : list kind) :
  In ev (validates_ok t ks) ->
  exists k, ev = EvValidate k (queue_in t k) None /\ In k ks.
Proof.
  unfold validates_ok. rewrite in_map_iff. intros (k & <- & Hk).
  now exists k.
Qed.

Lemma In_executes_ok (ev : event) (l : list (kind * item)) :
  In ev (executes_ok l) -> exists k x, ev = EvExecute k x None /\ In (k, x) l.
Proof.
  unfold executes_ok. rewrite in_map_iff. intros ([k x] & <- & Hk).
  now exists k, x.
Qed.

Lemma In_pending (t : TransactionType.t SubTransaction) (ks : list kind)
      (k : kind) (x : item) :
  In (k, x) (pending t ks) <-> In k ks /\ In x (queue_in t k).
Proof.
  unfold pending. rewrite in_flat_map. split.
  - intros (k' & Hk' & Hin). apply in_map_iff in Hin.
    destruct Hin as (x' & Heq & Hx'). injection Heq as -> ->. auto.
  - intros [Hk Hx]. exists k. split; [exact Hk|]. now apply in_map.
Qed.

Lemma execute_calls_app (t1 t2 : list event) :
  execute_calls (t1 ++ t2) = execute_calls t1 ++ execute_calls t2.
Proof.
  induction t1 as [|ev t1 IH]; [reflexivity|].
  destruct ev; simpl; now rewrite IH.
Qed.

Lemma execute_calls_sorts (ks : list kind) : execute_calls (sorts_ok ks) = [].
Proof. induction ks; simpl; auto. Qed.

Lemma execute_calls_validates (t : TransactionType.t SubTransaction)
      (ks : list kind) :
  execute_calls (validates_ok t ks) = [].
Proof. induction ks; simpl; auto. Qed.

Lemma execute_calls_executes (l : list (kind * item)) :
  execute_calls (executes_ok l) = l.
Proof. induction l as [|[k x] l IH]; simpl; [reflexivity|]. now rewrite IH. Qed.

(** An event that [P] selects, met in a list that starts with events [P]
    rejects, lies after all of them. *)
Lemma split_after (P : event -> bool) (a b pre post : list event)
      (ev : event) :
  a ++ b = pre ++ ev :: post ->
  Forall (fun e => P e = false) a -> P ev = true ->
  exists pre', pre = a ++ pre' /\ b = pre' ++ ev :: post.
Proof.
  revert pre; induction a as [|x a IH]; intros pre H Ha Hev.
  - exists pre. auto.
  - inversion Ha as [|? ? Hx Ha']; subst. destruct pre as [|y pre].
    + simpl in H. injection H as -> _. congruence.
    + simpl in H. injection H as -> H.
      destruct (IH _ H Ha' Hev) as (pre' & -> & Hb). now exists pre'.
Qed.

Lemma sorts_not_execute (ks : list kind) :
  Forall (fun e => is_execute e = false) (sorts_ok ks).
Proof. apply Forall_forall. intros ev H. apply In_sorts_ok in H.
       destruct H as (k & -> & _). reflexivity. Qed.

Lemma validates_not_execute (t : TransactionType.t SubTransaction)
      (ks : list kind) :
  Forall (fun e => is_execute e = false) (validates_ok t ks).
Proof. apply Forall_forall. intros ev H. apply In_validates_ok in H.
       destruct H as (k & -> & _). reflexivity. Qed.

Lemma strongly_sorted_app (A : Type) (R : A -> A -> Prop) (l1 l2 : list A) :
  StronglySorted R l1 -> StronglySorted R l2 ->
  (forall x y, In x l1 -> In y l2 -> R x y) ->
  StronglySorted R (l1 ++ l2).
Proof.
  induction 1 as [|a l1 Hs IH Ha]; intros H2 H12; simpl; [exact H2|].
  constructor.
  - apply IH; [exact H2|]. intros x y Hx. apply H12. now right.
  - apply Forall_app. split; [exact Ha|].
    apply Forall_forall. intros y Hy. apply H12; [now left|exact Hy].
Qed.

(** The records pending for kinds listed in increasing order are listed by
    increasing kind. *)
Lemma pending_by_kind (t : TransactionType.t SubTransaction)
      (ks : list kind) :
  StronglySorted (fun k k' => kind_index k <= kind_index k') ks ->
  StronglySorted (fun p p' => kind_index (fst p) <= kind_index (fst p'))
                 (pending t ks).
Proof.
  induction 1 as [|k ks Hs IH Hk]; [constructor|].
  change (pending t (k :: ks))
    with (map (pair k) (queue_in t k) ++ pending t ks).
  apply strongly_sorted_app; [|exact IH|].
  - induction (queue_in t k) as [|x q IHq]; simpl; constructor; [exact IHq|].
    apply Forall_forall. intros p Hp. apply in_map_iff in Hp.
    destruct Hp as (? & <- & _). simpl. lia.
  - intros p p' Hp Hp'. apply in_map_iff in Hp. destruct Hp as (? & <- & _).
    destruct p' as [k' x']. apply In_pending in Hp'. simpl.
    exact (proj1 (Forall_forall _ _) Hk k' (proj1 Hp')).
Qed.

Lemma fields_increasing :
  StronglySorted (fun k k' => kind_index k <= kind_index k') fields.
Proof. unfold fields. repeat constructor; simpl; lia. Qed.

Ltac split_in H :=
  match type of H with
  | In _ (_ ++ _) => apply in_app_or in H; destruct H as [H|H]; [|split_in H]
  | _ => idtac
  end.

Ltac classify H :=
  first
    [ apply In_sorts_ok in H; destruct H as (? & H & ?)
    | apply In_validates_ok in H; destruct H as (? & H & ?)
    | apply In_executes_ok in H; destruct H as (? & ? & H & ?)
    | destruct H as [H|[]] ].

Ltac trace_calls :=
  rewrite ?execute_calls_app, ?execute_calls_sorts, ?execute_calls_validates,
    ?execute_calls_executes; cbn [execute_calls app].

(** ** The phase protocol *)

Section Protocol.
Variable C : Collaborators.
Implicit Types (s : State C) (k : kind).

Lemma all_sorted_In_busy (t t' : TransactionType.t SubTransaction) k :
  all_sorted C t t' -> queue_in t k <> [] -> In k (busy t' fields).
Proof.
  intros H Hk. rewrite (@all_sorted_busy _ _ _ fields H).
  apply busy_In. split; [apply In_fields|exact Hk].
Qed.

(** C1: in every run of [Transaction.__exit__], an [execute] call of any
    kind comes after a successful [validate] of every kind whose queue is
    not empty; and when a [validate] raises, the run has no [execute] call
    at all and raises that same exception. *)
Theorem validate_precedes_execute (args : option exn) s :
  exists t,
    log (snd (__exit__ args s)) = log s ++ t /\
    (forall pre k x o post,
        t = pre ++ EvExecute k x o :: post ->
        forall k', queue_of k' s <> [] ->
                   exists q, In (EvValidate k' q None) pre) /\
    (forall k q e,
        In (EvValidate k q (Some e)) t ->
        fst (__exit__ args s) = inl e /\ execute_calls t = []).
Proof.
  destruct (__exit__ args s) as [r s'] eqn:Hrun. simpl.
  destruct (exit_spec _ _ Hrun) as (t & Hlog & Hex & _).
  exists t. split; [exact Hlog|]. split.
  - intros pre k x o post Ht k' Hk'.
    assert (Hcalls : execute_calls t
                     = execute_calls pre ++ (k, x) :: execute_calls post)
      by (rewrite Ht, execute_calls_app; reflexivity).
    destruct Hex as [ks1 k0 ks2 e Hb Hs
                    |ks1 k0 ks2 e Hsorted Hb
                    |l1 k0 x0 l2 e Hsorted Hp
                    |o' Hsorted].
    + revert Hcalls. trace_calls. destruct (execute_calls pre); discriminate.
    + revert Hcalls. trace_calls. destruct (execute_calls pre); discriminate.
    + apply (split_after is_execute) in Ht;
        [|apply sorts_not_execute|reflexivity].
      destruct Ht as (pre1 & -> & Ht).
      apply (split_after is_execute) in Ht;
        [|apply validates_not_execute|reflexivity].
      destruct Ht as (pre2 & -> & _).
      exists (queue_in (sub_transactions s') k').
      apply in_or_app. right. apply in_or_app. left.
      unfold validates_ok. apply in_map_iff. exists k'. split; [reflexivity|].
      now apply (@all_sorted_In_busy _ _ _ Hsorted).
    + apply (split_after is_execute) in Ht;
        [|apply sorts_not_execute|reflexivity].
      destruct Ht as (pre1 & -> & Ht).
      apply (split_after is_execute) in Ht;
        [|apply validates_not_execute|reflexivity].
      destruct Ht as (pre2 & -> & _).
      exists (queue_in (sub_transactions s') k').
      apply in_or_app. right. apply in_or_app. left.
      unfold validates_ok. apply in_map_iff. exists k'. split; [reflexivity|].
      now apply (@all_sorted_In_busy _ _ _ Hsorted).
  - intros k q e Hin.
    destruct Hex as [ks1 k0 ks2 e0 Hb Hs
                    |ks1 k0 ks2 e0 Hsorted Hb
                    |l1 k0 x0 l2 e0 Hsorted Hp
                    |o' Hsorted];
      split_in Hin; classify Hin; try discriminate.
    injection Hin as <- <- <-. split; [reflexivity|]. now trace_calls.
Qed.
Lemma all_sorted_kept (t t' : TransactionType.t SubTransaction) k :
  all_sorted C t t' -> queue_in t' k = sorted_or_kept C (queue_in t k).
Proof.
  intros H. destruct (H k) as [H1 H2]. unfold sorted_or_kept.
  destruct (nil_dec (queue_in t k)) as [Hq|Hq].
  - rewrite (H1 Hq), Hq. reflexivity.
  - now rewrite (H2 Hq).
Qed.

Lemma all_sorted_pending (t t' : TransactionType.t SubTransaction)
      (ks : list kind) :
  all_sorted C t t' ->
  pending t' ks
  = flat_map (fun k => map (pair k) (sorted_or_kept C (queue_in t k))) ks.
Proof.
  intros H. unfold pending. apply flat_map_ext. intros k.
  now rewrite (@all_sorted_kept t t' k H).
Qed.

(** C2: the [execute] calls of a run are, in order, a first part of the
    records [__exit__] found queued, each queue as [sorted] returns it,
    listed kind after kind in the order description_change, interrupt,
    removal, move, new_run.  They are all of them when the run returns,
    and records are left out only where a sort, a [validate] or an
    [execute] raised, which was then the last step.  So a call of an
    earlier kind never comes after a call of a later kind. *)
Theorem execute_in_kind_order (args : option exn) s :
  exists t,
    log (snd (__exit__ args s)) = log s ++ t /\
    (exists rest,
        execute_calls t ++ rest
        = flat_map (fun k => map (pair k) (sorted_or_kept C (queue_of k s)))
                   [KDescriptionChange; KInterrupt; KRemoval; KMove; KNewRun] /\
        (rest = [] \/
         exists t0 ev e,
           t = t0 ++ [ev] /\ is_db_exit ev = false /\ outcome ev = Some e) /\
        (fst (__exit__ args s) = inr tt -> rest = [])) /\
    (forall i j k1 x1 k2 x2,
        i < j ->
        nth_error (execute_calls t) i = Some (k1, x1) ->
        nth_error (execute_calls t) j = Some (k2, x2) ->
        kind_index k1 <= kind_index k2).
Proof.
  destruct (__exit__ args s) as [r s'] eqn:Hrun. cbn [fst snd].
  destruct (exit_spec _ _ Hrun) as (t & Hlog & Hex & _).
  exists t. split; [exact Hlog|].
  change (flat_map (fun k => map (pair k) (sorted_or_kept C (queue_of k s)))
                   [KDescriptionChange; KInterrupt; KRemoval; KMove; KNewRun])
    with (flat_map (fun k => map (pair k)
                                 (sorted_or_kept C
                                    (queue_in (sub_transactions s) k)))
                   fields).
  assert (Hprefix : exists rest,
             execute_calls t ++ rest = pending (sub_transactions s') fields).
  { destruct Hex as [ks1 k0 ks2 e Hb Hs
                    |ks1 k0 ks2 e Hsorted Hb
                    |l1 k0 x0 l2 e Hsorted Hp
                    |o' Hsorted]; trace_calls.
    - eexists. reflexivity.
    - eexists. reflexivity.
    - exists l2. now rewrite Hp, <- app_assoc.
    - exists []. now rewrite !app_nil_r. }
  split.
  - destruct Hex as [ks1 k0 ks2 e Hb Hs
                    |ks1 k0 ks2 e Hsorted Hb
                    |l1 k0 x0 l2 e Hsorted Hp
                    |o' Hsorted]; trace_calls.
    + eexists. split; [reflexivity|]. split; [|discriminate].
      right. exists (sorts_ok ks1), (EvSort k0 (Some e)), e. auto.
    + eexists. split; [reflexivity|]. split; [|discriminate].
      right.
      exists (sorts_ok (busy (sub_transactions s') fields) ++
              validates_ok (sub_transactions s') ks1),
             (EvValidate k0 (queue_in (sub_transactions s') k0) (Some e)), e.
      split; [now rewrite <- app_assoc|auto].
    + exists l2. rewrite <- (all_sorted_pending fields Hsorted), Hp.
      split; [now rewrite <- app_assoc|]. split; [|discriminate].
      right.
      exists (sorts_ok (busy (sub_transactions s') fields) ++
              validates_ok (sub_transactions s')
                           (busy (sub_transactions s') fields) ++
              executes_ok l1),
             (EvExecute k0 x0 (Some e)), e.
      split; [now rewrite <- !app_assoc|auto].
    + exists []. rewrite <- (all_sorted_pending fields Hsorted).
      split; [now rewrite !app_nil_r|]. split; [now left|reflexivity].
  - destruct Hprefix as (rest & Hrest).
    intros i j k1 x1 k2 x2 Hij Hi Hj.
    pose proof (pending_by_kind (sub_transactions s') fields_increasing) as Hs.
    rewrite <- Hrest in Hs.
    apply (strongly_sorted_nth (x := (k1, x1)) (y := (k2, x2)) Hs Hij).
    + rewrite nth_error_app1; [exact Hi|].
      apply nth_error_Some. congruence.
    + rewrite nth_error_app1; [exact Hj|].
      apply nth_error_Some. congruence.
Qed.

(** C6: a kind whose queue is empty when [__exit__] starts has no sort, no
    [validate] and no [execute] step in the run, and its queue is still
    empty afterwards. *)
Theorem empty_queue_skipped (args : option exn) s k :
  queue_of k s = [] ->
  exists t,
    log (snd (__exit__ args s)) = log s ++ t /\
    queue_of k (snd (__exit__ args s)) = [] /\
    (forall ev, In ev t -> event_kind ev <> Some k).
Proof.
  intros Hk.
  destruct (__exit__ args s) as [r s'] eqn:Hrun. simpl.
  destruct (exit_spec _ _ Hrun) as (t & Hlog & Hex & Hstep).
  exists t. split; [exact Hlog|].
  assert (Hk' : queue_of k s' = [])
    by (apply (proj2 (@sort_step_nil _ _ _ k Hstep)); exact Hk).
  split; [exact Hk'|].
  assert (Hbusy : forall k0, In k0 (busy (sub_transactions s') fields) ->
                             k0 <> k).
  { intros k0 H0 ->. apply busy_In in H0. now destruct H0. }
  assert (Hpending : forall k0 x, In (k0, x) (pending (sub_transactions s')
                                                      fields) -> k0 <> k).
  { intros k0 x H0 ->. apply In_pending in H0. destruct H0 as [_ H0].
    unfold queue_of, queue_in in *. rewrite Hk' in H0. destruct H0. }
  intros ev Hin Hev.
  destruct Hex as [ks1 k0 ks2 e Hb Hs
                  |ks1 k0 ks2 e Hsorted Hb
                  |l1 k0 x0 l2 e Hsorted Hp
                  |o' Hsorted];
    split_in Hin; classify Hin; subst ev; simpl in Hev;
    try discriminate; injection Hev as ->.
  all: first
    [ now apply (Hbusy k)
    | solve [ eapply (Hpending k); [eassumption|reflexivity] ]
    | solve [ apply (Hbusy k); [|reflexivity]; rewrite Hb;
              first [apply in_elt | apply in_or_app; left; assumption] ]
    | solve [ eapply (Hpending k); [|reflexivity]; rewrite Hp;
              first [apply in_elt | apply in_or_app; left; eassumption] ]
    | assert (H0 : In k (busy (sub_transactions s) fields))
        by (rewrite Hb;
            first [apply in_elt | apply in_or_app; left; assumption]);
      apply busy_In in H0; destruct H0 as [_ H0]; exact (H0 Hk) ].
Qed.
Lemma filter_none (A : Type) (f : A -> bool) (l : list A) :
  Forall (fun x => f x = false) l -> filter f l = [].
Proof. induction 1 as [|x l Hx _ IH]; simpl; [reflexivity|]. now rewrite Hx. Qed.

Lemma phase_steps_not_db_exit (t' : TransactionType.t SubTransaction)
      (ks1 ks2 : list kind) (l : list (kind * item)) :
  Forall (fun ev => is_db_exit ev = false)
         (sorts_ok ks1 ++ validates_ok t' ks2 ++ executes_ok l).
Proof.
  apply Forall_forall. intros ev Hin.
  split_in Hin; classify Hin; subst ev; reflexivity.
Qed.

(** C10: when a [validate] or an [execute] (or a sort) raises in the phase
    loop, [__exit__] raises the same exception and [self.db.__exit__] is not
    called; and when [self.db.__exit__] is called, it is called once, as the
    last step, after the sort and the [validate] of every busy kind and the
    [execute] of every queued record all returned. *)
Theorem db_exit_after_all_phases (args : option exn) s :
  exists t,
    log (snd (__exit__ args s)) = log s ++ t /\
    (forall ev e,
        In ev t -> is_db_exit ev = false -> outcome ev = Some e ->
        fst (__exit__ args s) = inl e /\ filter is_db_exit t = []) /\
    (forall ev,
        In ev t -> is_db_exit ev = true ->
        filter is_db_exit t = [ev] /\
        exists o,
          ev = EvDbExit args o /\
          fst (__exit__ args s) = result_of o /\
          t = sorts_ok (busy (sub_transactions s) fields) ++
              validates_ok (sub_transactions (snd (__exit__ args s)))
                           (busy (sub_transactions s) fields) ++
              executes_ok (pending (sub_transactions (snd (__exit__ args s)))
                                   fields) ++
              [ev]).
Proof.
  destruct (__exit__ args s) as [r s'] eqn:Hrun. simpl.
  destruct (exit_spec _ _ Hrun) as (t & Hlog & Hex & _).
  exists t. split; [exact Hlog|].
  destruct Hex as [ks1 k0 ks2 e0 Hb Hs
                  |ks1 k0 ks2 e0 Hsorted Hb
                  |l1 k0 x0 l2 e0 Hsorted Hp
                  |o' Hsorted].
  - split.
    + intros ev e Hin _ Hout. split_in Hin; classify Hin; subst ev;
        simpl in Hout; try discriminate. injection Hout as ->.
      split; [reflexivity|]. apply filter_none, Forall_app. split.
      * apply Forall_forall. intros ev Hin. classify Hin. now subst ev.
      * now repeat constructor.
    + intros ev Hin Hdb. split_in Hin; classify Hin; subst ev; discriminate.
  - split.
    + intros ev e Hin _ Hout. split_in Hin; classify Hin; subst ev;
        simpl in Hout; try discriminate. injection Hout as ->.
      split; [reflexivity|]. apply filter_none.
      rewrite app_assoc. apply Forall_app. split; [|now repeat constructor].
      pose proof (phase_steps_not_db_exit (sub_transactions s')
                    (busy (sub_transactions s') fields) ks1 []) as H.
      simpl in H. now rewrite app_nil_r in H.
    + intros ev Hin Hdb. split_in Hin; classify Hin; subst ev; discriminate.
  - split.
    + intros ev e Hin _ Hout. split_in Hin; classify Hin; subst ev;
        simpl in Hout; try discriminate. injection Hout as ->.
      split; [reflexivity|]. apply filter_none.
      rewrite 2!app_assoc. apply Forall_app.
      split; [|now repeat constructor]. rewrite <- app_assoc.
      apply phase_steps_not_db_exit.
    + intros ev Hin Hdb. split_in Hin; classify Hin; subst ev; discriminate.
  - rewrite (@all_sorted_busy _ _ _ fields Hsorted).
    assert (Hfilter : filter is_db_exit
               (sorts_ok (busy (sub_transactions s) fields) ++
                validates_ok (sub_transactions s')
                             (busy (sub_transactions s) fields) ++
                executes_ok (pending (sub_transactions s') fields) ++
                [EvDbExit args o'])
             = [EvDbExit args o']).
    { rewrite 2!app_assoc, filter_app, filter_none; [reflexivity|].
      rewrite <- app_assoc. apply phase_steps_not_db_exit. }
    split.
    + intros ev e Hin Hdb Hout. split_in Hin; classify Hin; subst ev;
        simpl in Hout, Hdb; discriminate.
    + intros ev Hin Hdb. split_in Hin; classify Hin; subst ev;
        try discriminate.
      split; [exact Hfilter|]. exists o'. auto.
Qed.
End Protocol.

(** ** The natural order of the queues *)

Lemma same_shape_same_type (k1 k2 : key) (d : bool) (i : nat) (x y : token) :
  alternates d k1 = true -> alternates d k2 = true ->
  nth_error k1 i = Some x -> nth_error k2 i = Some y -> same_type x y = true.
Proof.
  intros H1 H2 Hx Hy.
  pose proof (@alternates_nth _ _ _ _ H1 Hx) as Tx.
  pose proof (@alternates_nth _ _ _ _ H2 Hy) as Ty.
  destruct (Bool.eqb (Nat.odd i) d);
    destruct Tx as (? & ->), Ty as (? & ->); reflexivity.
Qed.

(** C9: the keys [natural_keys] returns for two strings have a [str] at
    every even index and an [int] at every odd one, so elements at the same
    index have the same type, Python's [<] between the two keys raises
    nothing, and sorting a queue never raises [TypeError]. *)
Theorem natural_keys_comparable (text1 text2 : string) (k1 k2 : key) :
  natural_keys text1 = inr k1 -> natural_keys text2 = inr k2 ->
  (forall i x, nth_error k1 i = Some x ->
               if Nat.even i then exists s, x = TStr s
               else exists n, x = TInt n) /\
  (forall i y, nth_error k2 i = Some y ->
               if Nat.even i then exists s, y = TStr s
               else exists n, y = TInt n) /\
  (forall i x y, nth_error k1 i = Some x -> nth_error k2 i = Some y ->
                 same_type x y = true) /\
  (exists b, key_lt k1 k2 = inr b) /\
  (forall (C : Collaborators) (q : list item),
      sort_queue C q <> inl TypeError).
Proof.
  intros H1 H2.
  apply natural_keys_alternates in H1, H2.
  assert (Hidx : forall k, alternates false k = true ->
                 forall i x, nth_error k i = Some x ->
                             if Nat.even i then exists s, x = TStr s
                             else exists n, x = TInt n).
  { intros k Hk i x Hx. pose proof (@alternates_nth _ _ _ _ Hk Hx) as T.
    rewrite <- Nat.negb_odd. destruct (Nat.odd i); exact T. }
  split; [now apply Hidx|]. split; [now apply Hidx|].
  split; [intros i x y; now apply same_shape_same_type with (d := false)|].
  split.
  - rewrite (@key_lt_compare _ _ false H1 H2). eexists; reflexivity.
  - intros C q H. apply sort_queue_exn in H. discriminate.
Qed.

Lemma natural_keys_comparable_witness :
  (exists b, key_lt [TStr "run-"; TInt 2; TStr ""]
                    [TStr "run-"; TInt 10; TStr ""] = inr b).
Proof.
  exact (proj1 (proj2 (proj2 (proj2
           (@natural_keys_comparable "run-2" "run-10" _ _
              eq_refl eq_refl))))).
Defined.

(** C5: sorting a queue that [sorted] returned gives that same queue. *)
Theorem sort_queue_idempotent (C : Collaborators) (q l : list item) :
  sort_queue C q = inr l -> sort_queue C l = inr l.
Proof. apply sorted_idempotent, sort_queue_shape. Qed.

Lemma sort_queue_idempotent_witness :
  sort_queue accepting [ItemPath "run-2"; ItemPath "a"; ItemPath "run-10"]
  = inr [ItemPath "a"; ItemPath "run-2"; ItemPath "run-10"].
Proof.
  exact (@sort_queue_idempotent accepting
           [ItemPath "run-10"; ItemPath "a"; ItemPath "run-2"] _ eq_refl).
Defined.

(** Where [sorted] returns, the queue is the same records in the natural
    order of their keys. *)
Lemma sort_queue_natural (C : Collaborators) (q l : list item) :
  sort_queue C q = inr l ->
  Permutation q l /\
  StronglySorted (ordered_by_key (fun x => natural_keys (str C x))) l.
Proof.
  intros H. split.
  - exact (@sorted_perm _ _ (@sort_queue_shape C) _ _ H).
  - exact (@sorted_strongly_sorted _ _ (@sort_queue_shape C) _ _ H).
Qed.

(** And it returns when every key can be computed. *)
Lemma sort_queue_returns (C : Collaborators) (q : list item) :
  Forall (fun x => exists k, natural_keys (str C x) = inr k) q ->
  exists l, sort_queue C q = inr l.
Proof. apply sorted_total, sort_queue_shape. Qed.

(** In a queue [sorted] returned, "run-2" stands before "run-10". *)
Lemma run_2_before_run_10 (C : Collaborators) (q l : list item)
      (a b : item) (i j : nat) :
  sort_queue C q = inr l ->
  str C a = "run-2" -> str C b = "run-10" ->
  nth_error l i = Some a -> nth_error l j = Some b -> i < j.
Proof.
  intros H Ha Hb Hi Hj.
  destruct (@sort_queue_natural _ _ _ H) as [_ Hs].
  destruct (Nat.lt_trichotomy i j) as [Hlt|[->|Hgt]]; [exact Hlt| |].
  - rewrite Hi in Hj. injection Hj as ->. rewrite Ha in Hb. discriminate.
  - pose proof (strongly_sorted_nth Hs Hgt Hj Hi) as (kb & ka & Kb & Ka & Hle).
    rewrite Ha in Ka. rewrite Hb in Kb.
    injection Ka as <-. injection Kb as <-.
    exfalso. apply Hle. reflexivity.
Qed.

(** C3: a queue that holds "run-10", "run-2" and a path named by a
    superscript digit is not reordered: the key of the last path cannot be
    computed, the sort phase raises [ValueError], [__exit__] stops there and
    "run-10" still stands before "run-2". *)
Theorem sort_phase_superscript_digit (C : Collaborators) (args : option exn)
        (w : World C) :
  natural_keys superscript_two = inl ValueError /\
  sort_queue C superscript_queue = inl ValueError /\
  fst (__exit__ args (set_queue KRemoval superscript_queue (init C w)))
  = inl ValueError /\
  queue_of KRemoval
           (snd (__exit__ args (set_queue KRemoval superscript_queue
                                          (init C w))))
  = superscript_queue /\
  log (snd (__exit__ args (set_queue KRemoval superscript_queue (init C w))))
  = [EvSort KRemoval (Some ValueError)].
Proof. repeat split; reflexivity. Qed.

Lemma sort_queue_exp (C : Collaborators) (a b : item) :
  str C a = "exp/1" -> str C b = "exp/10" ->
  sort_queue C [a; b] = inr [a; b] /\ sort_queue C [b; a] = inr [a; b].
Proof.
  intros Ha Hb. unfold sort_queue, sorted, decorate. simpl rmap.
  rewrite Ha, Hb. split; reflexivity.
Qed.

(** C4, amended: with one new-run record for "exp/1" and one for "exp/10"
    queued, in either order, and the other four queues empty, [__exit__]
    calls the new-run [execute] exactly twice, for "exp/1" and then for
    "exp/10", provided the new-run [validate] returns and the [execute] of
    the "exp/1" record returns. *)
Theorem two_new_runs_executed_in_order (C : Collaborators)
        (args : option exn) (s : State C) (r1 r10 : RunEntry.t)
        (w1 : World C) :
  RunEntry.path r1 = "exp/1" -> RunEntry.path r10 = "exp/10" ->
  (forall r, run_entry_str C r = RunEntry.path r) ->
  queue_of KNewRun s = [ItemRun r1; ItemRun r10] \/
  queue_of KNewRun s = [ItemRun r10; ItemRun r1] ->
  (forall k, k <> KNewRun -> queue_of k s = []) ->
  st_validate C KNewRun [ItemRun r1; ItemRun r10] (world s) = (None, w1) ->
  fst (st_execute C KNewRun (ItemRun r1) w1) = None ->
  exists t,
    log (snd (__exit__ args s)) = log s ++ t /\
    execute_calls t = [(KNewRun, ItemRun r1); (KNewRun, ItemRun r10)].
Proof.
  intros Hp1 Hp10 Hstr Hq Hothers Hval Hex.
  assert (Hs1 : str C (ItemRun r1) = "exp/1") by (simpl; now rewrite Hstr).
  assert (Hs10 : str C (ItemRun r10) = "exp/10") by (simpl; now rewrite Hstr).
  destruct (@sort_queue_exp C _ _ Hs1 Hs10) as [Hsort Hsort'].
  destruct s as [[[q1] [q2] [q3] [q4] [q5]] w lg].
  pose proof (Hothers KDescriptionChange) as H1.
  pose proof (Hothers KInterrupt) as H2.
  pose proof (Hothers KRemoval) as H3.
  pose proof (Hothers KMove) as H4.
  unfold queue_of in *. simpl in *.
  rewrite H1, H2, H3, H4 in * by discriminate. clear H1 H2 H3 H4 Hothers.
  assert (Hgo : forall q, sort_queue C q = inr [ItemRun r1; ItemRun r10] ->
                          q <> [] -> q5 = q ->
            exists t,
              log (snd (__exit__ args
                          {| sub_transactions :=
                               TransactionType.mk
                                 {| queue := [] |} {| queue := [] |}
                                 {| queue := [] |} {| queue := [] |}
                                 {| queue := q5 |};
                             world := w; log := lg |})) = lg ++ t /\
              execute_calls t = [(KNewRun, ItemRun r1); (KNewRun, ItemRun r10)]).
  { intros q Hsorted Hne ->.
    destruct q as [|x q]; [contradiction|].
    cbv beta iota zeta delta
        -[sort_queue app execute_calls st_validate st_execute db_exit].
    rewrite Hsorted, Hval.
    destruct (st_execute C KNewRun (ItemRun r1) w1) as [o1 w2].
    simpl in Hex. subst o1.
    destruct (st_execute C KNewRun (ItemRun r10) w2) as [[e2|] w3].
    - eexists. split; [rewrite <- !app_assoc; reflexivity|reflexivity].
    - destruct (db_exit C args w3) as [[e3|] w4];
        eexists; (split; [rewrite <- !app_assoc; reflexivity|reflexivity]). }
  destruct Hq as [Hq|Hq]; eapply Hgo; try exact Hq;
    rewrite ?Hq; try discriminate; assumption.
Qed.

(** C4 as the spec has it, without these two conditions, fails: where the
    new-run [validate] raises, [execute] is not called at all, and where
    the [execute] of "exp/1" raises, it is called only once. *)
Lemma two_new_runs_counterexample :
  ~ two_new_runs_unconditionally rejecting_new_run /\
  ~ two_new_runs_unconditionally failing_first_execute.
Proof.
  split; intros H.
  - destruct (H None (two_runs_queued rejecting_new_run tt)
                (run "exp/1") (run "exp/10") eq_refl eq_refl
                (fun _ => eq_refl) (or_intror eq_refl))
      as (t & Hlog & Hcalls).
    + intros [] Hk; try reflexivity. now contradiction Hk.
    + vm_compute in Hlog. subst t. vm_compute in Hcalls. discriminate.
  - destruct (H None (two_runs_queued failing_first_execute tt)
                (run "exp/1") (run "exp/10") eq_refl eq_refl
                (fun _ => eq_refl) (or_intror eq_refl))
      as (t & Hlog & Hcalls).
    + intros [] Hk; try reflexivity. now contradiction Hk.
    + vm_compute in Hlog. subst t. vm_compute in Hcalls. discriminate.
Qed.

Lemma two_new_runs_executed_in_order_witness :
  exists t,
    log (snd (__exit__ None two_runs_state)) = log two_runs_state ++ t /\
    execute_calls t = [(KNewRun, ItemRun (run "exp/1"));
                       (KNewRun, ItemRun (run "exp/10"))].
Proof.
  apply (@two_new_runs_executed_in_order accepting None two_runs_state
           (run "exp/1") (run "exp/10") tt); try reflexivity.
  - right. reflexivity.
  - intros [] H; try reflexivity. now contradiction H.
Defined.

Lemma empty_queue_skipped_witness :
  exists t,
    log (snd (__exit__ None removals_state)) = log removals_state ++ t /\
    queue_of KMove (snd (__exit__ None removals_state)) = [] /\
    (forall ev, In ev t -> event_kind ev <> Some KMove).
Proof.
  exact (@empty_queue_skipped accepting None removals_state KMove eq_refl).
Defined.

(** ** The record-adding methods *)

Section Adding.
Variable C : Collaborators.
Implicit Types (s : State C) (k : kind).

Lemma add_appended k (x : item) s :
  fst (add k x s) = inr tt /\ appended k x s (snd (add k x s)).
Proof.
  split; [reflexivity|]. unfold appended, add, set_queue, queue_of. simpl.
  split; [now rewrite get_set_same|].
  split; [|split; reflexivity].
  intros k' Hk'. rewrite get_set_other; [reflexivity|congruence].
Qed.

(** C8: each record-adding method returns, and leaves the state with one
    record, built from its parameters, appended to the queue of its own
    kind; the other four queues, the world of the collaborators and the
    trace (no [validate], no [execute], no database call) are unchanged. *)
Theorem add_methods_append s :
  (forall path full_command commit datetime description input_command,
      fst (add_run path full_command commit datetime description
                   input_command s) = inr tt /\
      appended KNewRun
               (ItemRun (RunEntry.mk path full_command commit datetime
                                     description input_command))
               s (snd (add_run path full_command commit datetime description
                               input_command s))) /\
  (forall src dest kill_tmux,
      fst (move src dest kill_tmux s) = inr tt /\
      appended KMove (ItemMove (Move.mk src dest kill_tmux))
               s (snd (move src dest kill_tmux s))) /\
  (forall path,
      fst (remove path s) = inr tt /\
      appended KRemoval (ItemPath path) s (snd (remove path s))) /\
  (forall path,
      fst (interrupt path s) = inr tt /\
      appended KInterrupt (ItemPath path) s (snd (interrupt path s))) /\
  (forall path full_command old_description new_description,
      fst (change_description path full_command old_description
                              new_description s) = inr tt /\
      appended KDescriptionChange
               (ItemDescription
                  (DescriptionChange.mk path full_command old_description
                                        new_description))
               s (snd (change_description path full_command old_description
                                          new_description s))).
Proof.
  split; [|split; [|split; [|split]]]; intros; apply add_appended.
Qed.

Lemma perform_frame (c : method_call) s :
  fst (@perform C c s) = inr tt /\
  world (snd (@perform C c s)) = world s /\
  log (snd (@perform C c s)) = log s.
Proof. destruct c; repeat split. Qed.

Lemma calls_frame (cs : list method_call) s :
  fst (for_each cs (@perform C) s) = inr tt /\
  world (snd (for_each cs (@perform C) s)) = world s /\
  log (snd (for_each cs (@perform C) s)) = log s.
Proof.
  revert s; induction cs as [|c cs IH]; intros s; [repeat split|].
  simpl. unfold bind.
  destruct (perform_frame c s) as (Hr & Hw & Hl).
  destruct (@perform C c s) as [r s1]. simpl in *. subst r.
  destruct (IH s1) as (Hr' & Hw' & Hl'). repeat split; congruence.
Qed.

Lemma run_func_frame (A : Type) (f : func A) s :
  fst (@run_func C A f s) = finish f /\
  world (snd (@run_func C A f s)) = world s /\
  log (snd (@run_func C A f s)) = log s.
Proof.
  unfold run_func, bind.
  destruct (calls_frame (calls f) s) as (Hr & Hw & Hl).
  destruct (for_each (calls f) (@perform C) s) as [r s1]. simpl in *.
  subst r. auto.
Qed.
End Adding.

(** ** The scope of a transaction *)

Section Scope.
Variable C : Collaborators.
Implicit Types (s : State C).

Lemma phase_steps_return (t' : TransactionType.t SubTransaction)
      (ks1 ks2 : list kind) (l : list (kind * item)) :
  Forall (fun ev => outcome ev = None)
         (sorts_ok ks1 ++ validates_ok t' ks2 ++ executes_ok l).
Proof.
  apply Forall_forall. intros ev Hin.
  split_in Hin; classify Hin; subst ev; reflexivity.
Qed.

(** How [__exit__] ends: with one call of [self.db.__exit__], the last
    step, after steps that all returned; or without any, on the first step
    that raises. *)
Lemma exit_finalization (args : option exn) s (r : result unit) s' :
  __exit__ args s = (r, s') ->
  exists t0 ev,
    log s' = log s ++ t0 ++ [ev] /\
    Forall (fun ev' => outcome ev' = None) t0 /\
    Forall (fun ev' => is_db_exit ev' = false) t0 /\
    r = result_of (outcome ev) /\
    ((exists o, ev = EvDbExit args o) \/
     (is_db_exit ev = false /\ exists e, outcome ev = Some e)).
Proof.
  intros Hrun. destruct (exit_spec _ _ Hrun) as (t & Hlog & Hex & _).
  destruct Hex as [ks1 k0 ks2 e0 Hb Hs
                  |ks1 k0 ks2 e0 Hsorted Hb
                  |l1 k0 x0 l2 e0 Hsorted Hp
                  |o' Hsorted].
  - exists (sorts_ok ks1), (EvSort k0 (Some e0)).
    split; [exact Hlog|].
    pose proof (phase_steps_return (sub_transactions s) ks1 [] []) as H1.
    pose proof (phase_steps_not_db_exit (sub_transactions s) ks1 [] []) as H2.
    simpl in H1, H2. rewrite app_nil_r in H1, H2.
    repeat split; try assumption. right. split; [reflexivity|].
    now exists e0.
  - exists (sorts_ok (busy (sub_transactions s') fields) ++
            validates_ok (sub_transactions s') ks1),
           (EvValidate k0 (queue_in (sub_transactions s') k0) (Some e0)).
    split; [now rewrite Hlog, <- !app_assoc|].
    pose proof (phase_steps_return (sub_transactions s')
                  (busy (sub_transactions s') fields) ks1 []) as H1.
    pose proof (phase_steps_not_db_exit (sub_transactions s')
                  (busy (sub_transactions s') fields) ks1 []) as H2.
    simpl in H1, H2. rewrite app_nil_r in H1, H2.
    repeat split; try assumption. right. split; [reflexivity|].
    now exists e0.
  - exists (sorts_ok (busy (sub_transactions s') fields) ++
            validates_ok (sub_transactions s')
                         (busy (sub_transactions s') fields) ++
            executes_ok l1),
           (EvExecute k0 x0 (Some e0)).
    split; [now rewrite Hlog, <- !app_assoc|].
    repeat split;
      [apply phase_steps_return|apply phase_steps_not_db_exit|].
    right. split; [reflexivity|]. now exists e0.
  - exists (sorts_ok (busy (sub_transactions s') fields) ++
            validates_ok (sub_transactions s')
                         (busy (sub_transactions s') fields) ++
            executes_ok (pending (sub_transactions s') fields)),
           (EvDbExit args o').
    split; [now rewrite Hlog, <- !app_assoc|].
    repeat split;
      [apply phase_steps_return|apply phase_steps_not_db_exit|].
    left. now exists o'.
Qed.

Lemma enter_returns s :
  fst (db_enter C (world s)) = None ->
  __enter__ s
  = (inr tt, {| sub_transactions := sub_transactions s;
                world := snd (db_enter C (world s));
                log := log s ++ [EvDbEnter None] |}).
Proof.
  unfold __enter__, call. destruct (db_enter C (world s)) as [o w'].
  simpl. now intros ->.
Qed.

(** Leaving the scope on an exception of the body: [__exit__] is given
    that exception, and what it raises takes its place. *)
Lemma with_transaction_raise (A : Type) (body : M C A) s s1 s2 (e : exn) :
  __enter__ s = (inr tt, s1) -> body s1 = (inl e, s2) ->
  with_transaction body s
  = (match fst (__exit__ (Some e) s2) with
     | inl e' => inl e'
     | inr _ => inl e
     end, snd (__exit__ (Some e) s2)).
Proof.
  intros H1 H2. unfold with_transaction. rewrite H1, H2.
  now destruct (__exit__ (Some e) s2) as [[e'|u] s3].
Qed.

(** C7, amended: when the caller's code raises [e] inside the open scope,
    [self.db.__exit__] is never called twice.  Provided no sort,
    [validate] or [execute] step of [__exit__] raises, it is called exactly
    once, with [e], and the caller sees [e], provided [self.db.__exit__]
    itself returns (otherwise what it raises).  Where such a step raises,
    [self.db.__exit__] is not called and the caller sees the exception of
    that step. *)
Theorem scoped_exit_after_caller_error (A : Type) (f : func A)
        (w : World C) (e : exn) :
  finish f = inl e -> fst (db_enter C w) = None ->
  exists t,
    log (snd (@wrapper C A f w)) = EvDbEnter None :: t /\
    List.length (filter is_db_exit t) <= 1 /\
    (Forall (fun ev => is_db_exit ev = false -> outcome ev = None) t ->
     exists o,
       filter is_db_exit t = [EvDbExit (Some e) o] /\
       fst (@wrapper C A f w)
       = inl (match o with Some e' => e' | None => e end)) /\
    (forall ev e',
        In ev t -> is_db_exit ev = false -> outcome ev = Some e' ->
        filter is_db_exit t = [] /\ fst (@wrapper C A f w) = inl e').
Proof.
  intros Hf Henter. unfold wrapper.
  pose proof (enter_returns (init C w) Henter) as Hen.
  set (s1 := {| sub_transactions := sub_transactions (init C w);
                world := snd (db_enter C (world (init C w)));
                log := log (init C w) ++ [EvDbEnter None] |}) in *.
  destruct (run_func_frame f s1) as (Hr & _ & Hl).
  destruct (@run_func C A f s1) as [r2 s2] eqn:Hbody. simpl in Hr, Hl.
  rewrite Hf in Hr. subst r2.
  rewrite (@with_transaction_raise _ _ _ _ _ _ Hen Hbody).
  destruct (__exit__ (Some e) s2) as [r3 s3] eqn:Hrun.
  destruct (exit_finalization _ _ Hrun)
    as (t0 & ev & Hlog & Hret & Hnodb & Hr3 & Hev).
  rewrite Hl in Hlog. simpl in Hlog.
  assert (Hfilter0 : filter is_db_exit t0 = []) by now apply filter_none.
  exists (t0 ++ [ev]). simpl fst. simpl snd. split; [exact Hlog|].
  rewrite filter_app, Hfilter0. simpl.
  destruct Hev as [(o & ->)|(Hnot & e1 & He1)].
  - simpl. split; [lia|]. split.
    + intros _. exists o. split; [reflexivity|].
      simpl in Hr3. subst r3. now destruct o.
    + intros ev e' Hin Hnot Hout. exfalso.
      apply in_app_or in Hin. destruct Hin as [Hin|[<-|[]]].
      * rewrite (proj1 (Forall_forall _ _) Hret ev Hin) in Hout. discriminate.
      * discriminate.
  - rewrite Hnot. simpl. split; [lia|]. split.
    + intros Hall. exfalso.
      rewrite Forall_app in Hall. destruct Hall as [_ Hall].
      inversion Hall as [|? ? Hx _]; subst. rewrite (Hx Hnot) in He1.
      discriminate.
    + intros ev' e' Hin Hnot' Hout. split; [reflexivity|].
      apply in_app_or in Hin. destruct Hin as [Hin|[<-|[]]].
      * rewrite (proj1 (Forall_forall _ _) Hret ev' Hin) in Hout.
        discriminate.
      * rewrite He1 in Hr3, Hout. injection Hout as <-.
        simpl in Hr3. now subst r3.
Qed.
End Scope.

Lemma scoped_exit_after_caller_error_witness :
  exists t,
    log (snd (@wrapper accepting unit failing_caller tt))
    = EvDbEnter None :: t /\
    List.length (filter is_db_exit t) <= 1 /\
    (Forall (fun ev => is_db_exit ev = false -> outcome ev = None) t ->
     exists o,
       filter is_db_exit t = [EvDbExit (Some (OtherError "caller")) o] /\
       fst (@wrapper accepting unit failing_caller tt)
       = inl (match o with Some e' => e' | None => OtherError "caller" end)) /\
    (forall ev e',
        In ev t -> is_db_exit ev = false -> outcome ev = Some e' ->
        filter is_db_exit t = [] /\
        fst (@wrapper accepting unit failing_caller tt) = inl e').
Proof.
  exact (@scoped_exit_after_caller_error accepting unit failing_caller tt
           (OtherError "caller") eq_refl eq_refl).
Defined.

(** C7 as the spec has it, without these conditions, fails: with a
    removal queued that [validate] refuses, the caller's error is replaced
    by the [ValidationError] and [self.db.__exit__] is not called at all;
    and where [self.db.__exit__] raises, the caller sees what it raises
    instead of the original error. *)
Lemma scoped_exit_counterexample :
  ~ scoped_exit_unconditionally rejecting_removal /\
  ~ scoped_exit_unconditionally failing_db_exit.
Proof.
  split; intros H.
  - destruct (H failing_caller tt (OtherError "caller") eq_refl eq_refl)
      as [_ Hcount].
    vm_compute in Hcount. discriminate.
  - destruct (H failing_caller tt (OtherError "caller") eq_refl eq_refl)
      as [Hresult _].
    vm_compute in Hresult. discriminate.
Qed.

(** ** Runs on the sample inputs *)

(** A removal that [validate] refuses: the run stops there, with nothing
    executed and the database session left as it was. *)
Example refused_removal_run :
  fst (__exit__ None (set_queue KRemoval [ItemPath "exp/5"]
                                (init rejecting_removal tt)))
  = inl (ValidationError "no such run") /\
  log (snd (__exit__ None (set_queue KRemoval [ItemPath "exp/5"]
                                     (init rejecting_removal tt))))
  = [EvSort KRemoval None;
     EvValidate KRemoval [ItemPath "exp/5"]
                (Some (ValidationError "no such run"))].
Proof. split; reflexivity. Qed.

(** Three removals with collaborators that accept everything. *)
Example accepted_removals_run :
  log (snd (__exit__ None removals_state))
  = [EvSort KRemoval None;
     EvValidate KRemoval [ItemPath "a"; ItemPath "run-2"; ItemPath "run-10"]
                None;
     EvExecute KRemoval (ItemPath "a") None;
     EvExecute KRemoval (ItemPath "run-2") None;
     EvExecute KRemoval (ItemPath "run-10") None;
     EvDbExit None None].
Proof. reflexivity. Qed.

(** The caller fails after queuing a removal: the removal is executed all
    the same, then the session is finalized with the caller's error. *)
Example failing_caller_run :
  fst (@wrapper accepting unit failing_caller tt)
  = inl (OtherError "caller") /\
  log (snd (@wrapper accepting unit failing_caller tt))
  = [EvDbEnter None;
     EvSort KRemoval None;
     EvValidate KRemoval [ItemPath "exp/5"] None;
     EvExecute KRemoval (ItemPath "exp/5") None;
     EvDbExit (Some (OtherError "caller")) None].
Proof. split; reflexivity. Qed.

(** * Further properties *)

(** ** The tokens of [natural_keys] *)

Lemma string_append_nil_r (s : string) : (s ++ "")%string = s.
Proof. induction s as [|c s IH]; simpl; [reflexivity|]. now rewrite IH. Qed.

Lemma string_append_assoc (a b c : string) :
  ((a ++ b) ++ c)%string = (a ++ (b ++ c))%string.
Proof. induction a as [|x a IH]; simpl; [reflexivity|]. now rewrite IH. Qed.

Lemma join_split_runs (text cur : string) (d : bool) :
  join (split_runs d cur text) = (cur ++ text)%string.
Proof.
  revert cur d; induction text as [|c rest IH]; intros cur d; simpl.
  - destruct d; simpl; now rewrite ?string_append_nil_r.
  - destruct (Bool.eqb (re_digit c) d); simpl.
    + rewrite IH, string_append_assoc. reflexivity.
    + unfold join in IH. now rewrite IH.
Qed.

(** X1: the pieces [re.split] cuts a text into, the matches of [\d+]
    among them, spell the text again when they are joined. *)
Theorem join_re_split_digits (text : string) :
  join (re_split_digits text) = text.
Proof. unfold re_split_digits. now rewrite join_split_runs. Qed.

Lemma chars_nil (r : string) : chars r = [] -> r = "".
Proof. destruct r; [reflexivity|discriminate]. Qed.

Lemma length_chars (r : string) : List.length (chars r) = String.length r.
Proof. induction r as [|c r IH]; simpl; [reflexivity|]. now rewrite IH. Qed.

Lemma length_append (a b : string) :
  String.length (a ++ b)%string = String.length a + String.length b.
Proof. induction a as [|c a IH]; simpl; [reflexivity|]. now rewrite IH. Qed.

(** The piece at index [i] is a match of [\d+] when [i] is odd, a piece of
    text between matches when [i] is even. *)
Lemma runs_alternate_nth (l : list string) (d : bool) (i : nat)
      (r : string) :
  runs_alternate d l -> nth_error l i = Some r ->
  run_of (xorb d (Nat.odd i)) r.
Proof.
  revert d i; induction l as [|x l IH]; intros d i H Hi.
  - destruct i; discriminate.
  - destruct H as [Hx Hl]. destruct i as [|i].
    + simpl in Hi. injection Hi as <-. now rewrite xorb_false_r.
    + simpl in Hi. specialize (IH _ _ Hl Hi).
      rewrite Nat.odd_succ, <- Nat.negb_odd.
      destruct d, (Nat.odd i); simpl in *; exact IH.
Qed.

Lemma re_split_digits_nth (text : string) (i : nat) (r : string) :
  nth_error (re_split_digits text) i = Some r -> run_of (Nat.odd i) r.
Proof.
  intros H.
  exact (@runs_alternate_nth _ false _ _ (re_split_digits_alternate text) H).
Qed.

Lemma chars_join (l : list string) (r : string) (c : ascii) :
  In r l -> In c (chars r) -> In c (chars (join l)).
Proof.
  induction l as [|x l IH]; intros Hr Hc; [destruct Hr|].
  simpl. rewrite chars_append. apply in_or_app.
  destruct Hr as [->|Hr]; [now left|right; now apply IH].
Qed.

Lemma length_join (l : list string) (r : string) :
  In r l -> String.length r <= String.length (join l).
Proof.
  induction l as [|x l IH]; intros Hr; [destruct Hr|].
  simpl. rewrite length_append. destruct Hr as [->|Hr]; [lia|].
  specialize (IH Hr). lia.
Qed.

Lemma rmap_In_inl (A B : Type) (f : A -> result B) (l : list A) (x : A)
      (e : exn) :
  In x l -> f x = inl e -> exists e', rmap f l = inl e'.
Proof.
  induction l as [|y l IH]; intros Hin Hx; [destruct Hin|].
  simpl. destruct (f y) as [e1|b] eqn:Hy; simpl; [now exists e1|].
  destruct Hin as [->|Hin]; [congruence|].
  destruct (IH Hin Hx) as (e' & ->). simpl. now exists e'.
Qed.

(** A piece of text between matches is refused exactly when [str.isdigit]
    accepts it: [int] is then given a string without a decimal digit. *)
Lemma key_token_text_raises (r : string) :
  run_of false r -> (key_token r = inl ValueError <-> isdigit r = true).
Proof.
  intros [_ Hall]. unfold key_token. destruct (isdigit r) eqn:Hi.
  - split; [reflexivity|intros _]. unfold isdigit in Hi. unfold py_int.
    destruct (chars r) as [|c cs]; [reflexivity|].
    assert (Hc : re_digit c = false) by (inversion Hall; assumption).
    cbn [forallb]. now rewrite Hc.
  - split; discriminate.
Qed.

Lemma isdigit_decimal (r : string) : run_of true r -> isdigit r = true.
Proof.
  intros [Hne Hall]. unfold isdigit.
  destruct (chars r) as [|c cs] eqn:Hr.
  - exfalso. apply Hne; [reflexivity|]. now apply chars_nil.
  - apply forallb_forall. intros y Hy. apply re_digit_isdigit_char.
    exact (proj1 (Forall_forall _ _) Hall y Hy).
Qed.

Lemma py_int_decimal (r : string) :
  run_of true r ->
  py_int r
  = if (N.of_nat (String.length r) <=? int_max_str_digits)%N
    then inr (digits_value r) else inl ValueError.
Proof.
  intros [Hne Hall]. unfold py_int, digits_value.
  rewrite <- (length_chars r).
  destruct (chars r) as [|c cs] eqn:Hr.
  - exfalso. apply Hne; [reflexivity|]. now apply chars_nil.
  - assert (H1 : forallb re_digit (c :: cs) = true)
      by (apply forallb_forall; intros y Hy;
          exact (proj1 (Forall_forall _ _) Hall y Hy)).
    now rewrite H1.
Qed.

(** A match of [\d+] is refused exactly when it is longer than [int]
    converts. *)
Lemma key_token_digits_raises (r : string) :
  run_of true r ->
  (key_token r = inl ValueError <->
   (int_max_str_digits < N.of_nat (String.length r))%N).
Proof.
  intros Hrun. unfold key_token.
  rewrite (isdigit_decimal Hrun), (py_int_decimal Hrun).
  destruct (N.leb_spec (N.of_nat (String.length r)) int_max_str_digits)
    as [Hle|Hgt]; simpl; split; intros H;
    try discriminate; try reflexivity; try assumption; lia.
Qed.

(** Which piece makes [natural_keys] raise. *)
Lemma natural_keys_raises_piece (text : string) (e : exn) :
  natural_keys text = inl e ->
  exists i r,
    nth_error (re_split_digits text) i = Some r /\
    ((Nat.even i = true /\ isdigit r = true) \/
     (Nat.odd i = true /\
      (int_max_str_digits < N.of_nat (String.length r))%N)).
Proof.
  intros H. apply rmap_inl in H. destruct H as (r & Hin & Hr).
  rewrite (key_token_text_exn _ Hr) in Hr.
  apply In_nth_error in Hin. destruct Hin as (i & Hi).
  exists i, r. split; [exact Hi|].
  pose proof (re_split_digits_nth _ _ Hi) as Hrun.
  rewrite <- Nat.negb_odd. destruct (Nat.odd i).
  - right. split; [reflexivity|].
    now apply (proj1 (key_token_digits_raises Hrun)).
  - left. split; [reflexivity|].
    now apply (proj1 (key_token_text_raises Hrun)).
Qed.

(** A text where [str.isdigit] accepts decimal digits only, and short
    enough for [int], has a key. *)
Lemma natural_keys_plain (text : string) :
  Forall (fun c => isdigit_char c = re_digit c) (chars text) ->
  within_int_limit text ->
  exists k, natural_keys text = inr k.
Proof.
  intros Hplain Hlen. destruct (natural_keys text) as [e|k] eqn:H;
    [exfalso|now exists k].
  destruct (natural_keys_raises_piece _ H) as (i & r & Hi & Hcase).
  pose proof (nth_error_In _ _ Hi) as Hin.
  pose proof (join_split_runs text "" false) as Hj. simpl in Hj.
  destruct Hcase as [[Heven Hd]|[Hodd Hlong]].
  - assert (Hrun : run_of false r).
    { pose proof (re_split_digits_nth _ _ Hi) as Hr.
      rewrite <- Nat.negb_odd in Heven.
      destruct (Nat.odd i); [discriminate|exact Hr]. }
    destruct Hrun as [_ Hall]. unfold isdigit in Hd.
    destruct (chars r) as [|c cs] eqn:Hr; [discriminate|].
    assert (Hc : In c (chars text)).
    { rewrite <- Hj. apply chars_join with (r := r); [exact Hin|].
      rewrite Hr. now left. }
    pose proof (proj1 (Forall_forall _ _) Hplain c Hc) as H0. simpl in H0.
    assert (H1 : isdigit_char c = true)
      by (apply (proj1 (forallb_forall _ _) Hd); now left).
    assert (H2 : re_digit c = false) by (inversion Hall; assumption).
    congruence.
  - pose proof (length_join _ _ Hin) as Hle.
    unfold re_split_digits in Hle. rewrite Hj in Hle.
    unfold within_int_limit in Hlen. lia.
Qed.

(** X2: [natural_keys] raises nothing but [ValueError], and raises it
    exactly when, among the pieces [re.split] returns, a piece of text
    between matches of [\d+] (an even index) is accepted by [str.isdigit],
    or a match of [\d+] (an odd index) has more digits than [int]
    converts. *)
Theorem natural_keys_raises_iff (text : string) :
  (forall e, natural_keys text = inl e -> e = ValueError) /\
  (natural_keys text = inl ValueError <->
   exists i r,
     nth_error (re_split_digits text) i = Some r /\
     ((Nat.even i = true /\ isdigit r = true) \/
      (Nat.odd i = true /\
       (int_max_str_digits < N.of_nat (String.length r))%N))).
Proof.
  split; [apply natural_keys_exn|]. split.
  - apply natural_keys_raises_piece.
  - intros (i & r & Hi & Hcase).
    pose proof (re_split_digits_nth _ _ Hi) as Hrun.
    assert (Hr : key_token r = inl ValueError).
    { destruct Hcase as [[Heven Hd]|[Hodd Hlong]].
      - rewrite <- Nat.negb_odd in Heven.
        destruct (Nat.odd i); [discriminate|].
        now apply (proj2 (key_token_text_raises Hrun)).
      - rewrite Hodd in Hrun.
        now apply (proj2 (key_token_digits_raises Hrun)). }
    destruct (@rmap_In_inl _ _ key_token _ _ _ (nth_error_In _ _ Hi) Hr)
      as (e & He).
    unfold natural_keys. rewrite He.
    now rewrite (@natural_keys_exn text e He).
Qed.

(** ** Numbers at the end of a path *)

Lemma split_runs_digits (d cur : string) :
  Forall (fun c => re_digit c = true) (chars d) ->
  split_runs true cur d = [(cur ++ d)%string; ""].
Proof.
  revert cur; induction d as [|c d IH]; intros cur H; simpl.
  - now rewrite string_append_nil_r.
  - inversion H as [|? ? Hc Hd]; subst. rewrite Hc. simpl.
    rewrite (IH _ Hd), string_append_assoc. reflexivity.
Qed.

Lemma split_runs_suffix (p cur d : string) :
  digitless p -> decimal d ->
  split_runs false cur (p ++ d)%string = [(cur ++ p)%string; d; ""].
Proof.
  intros Hp [Hne Hd]. revert cur. induction p as [|x p IH]; intros cur.
  - simpl. destruct d as [|c d]; [contradiction|].
    inversion Hd as [|? ? Hc Hd']; subst. simpl. rewrite Hc. simpl.
    rewrite split_runs_digits by exact Hd'.
    rewrite string_append_nil_r. reflexivity.
  - inversion Hp as [|? ? Hx Hp']; subst. simpl. rewrite Hx. simpl.
    rewrite (IH Hp'), string_append_assoc. reflexivity.
Qed.

Lemma key_token_decimal (d : string) :
  decimal d -> within_int_limit d ->
  key_token d = inr (TInt (digits_value d)).
Proof.
  intros Hd Hlen. unfold key_token.
  rewrite (@isdigit_decimal d), (@py_int_decimal d);
    [|split; [intros _|]; apply Hd..].
  unfold within_int_limit in Hlen.
  now rewrite (proj2 (N.leb_le _ _) Hlen).
Qed.

(** The key of a text without digits followed by a number. *)
Lemma natural_keys_suffix (p d : string) :
  digitless p -> isdigit p = false -> decimal d -> within_int_limit d ->
  natural_keys (p ++ d)%string
  = inr [TStr p; TInt (digits_value d); TStr ""].
Proof.
  intros Hp Hi Hd Hlen. unfold natural_keys, re_split_digits.
  rewrite split_runs_suffix by assumption. simpl rmap.
  rewrite (@key_token_decimal d) by assumption.
  unfold key_token at 1. rewrite Hi.
  reflexivity.
Qed.

(** The value of a string of digits is positional. *)
Lemma digits_value_snoc (d : string) (c : ascii) :
  digits_value (d ++ String c "")%string
  = (10 * digits_value d + digit_value c)%N.
Proof.
  unfold digits_value. rewrite chars_append, fold_left_app. reflexivity.
Qed.

(** X3: two paths that differ in the number they end with, after the same
    text without digits, have keys when neither number has more digits
    than [int] converts, and Python's [<] puts first the one whose number
    is the smaller: "run-2" before "run-10", "run-9" before "run-10". *)
Theorem numbered_paths_in_numeric_order (p d1 d2 : string) :
  digitless p -> isdigit p = false ->
  decimal d1 -> within_int_limit d1 ->
  decimal d2 -> within_int_limit d2 ->
  exists k1 k2,
    natural_keys (p ++ d1)%string = inr k1 /\
    natural_keys (p ++ d2)%string = inr k2 /\
    key_lt k1 k2 = inr (digits_value d1 <? digits_value d2)%N.
Proof.
  intros Hp Hi H1 L1 H2 L2.
  exists [TStr p; TInt (digits_value d1); TStr ""],
         [TStr p; TInt (digits_value d2); TStr ""].
  split; [now apply natural_keys_suffix|].
  split; [now apply natural_keys_suffix|].
  simpl. rewrite String.eqb_refl.
  destruct (N.eqb_spec (digits_value d1) (digits_value d2)) as [->|Hne];
    [|reflexivity].
  now rewrite N.ltb_irrefl.
Qed.

Lemma numbered_paths_in_numeric_order_witness :
  exists k1 k2,
    natural_keys "run-9" = inr k1 /\
    natural_keys "run-10" = inr k2 /\
    key_lt k1 k2 = inr true.
Proof.
  apply (@numbered_paths_in_numeric_order "run-" "9" "10").
  - repeat constructor.
  - reflexivity.
  - split; [discriminate|repeat constructor].
  - intros H. discriminate H.
  - split; [discriminate|repeat constructor].
  - intros H. discriminate H.
Defined.

(** X4: a zero put before the number a path ends with does not change the
    key, as long as the number with its zero is not longer than [int]
    converts: [natural_keys] does not tell "run-02" from "run-2", and the
    sort leaves two such paths in the order they were queued. *)
Theorem leading_zero_same_key (p d : string) :
  digitless p -> isdigit p = false -> decimal d ->
  within_int_limit (String "0" d) ->
  natural_keys (p ++ String "0" d)%string = natural_keys (p ++ d)%string.
Proof.
  intros Hp Hi Hd Hlen.
  assert (H0 : decimal (String "0" d)).
  { split; [discriminate|]. destruct Hd as [_ Hd]. now constructor. }
  assert (Hlen' : within_int_limit d).
  { unfold within_int_limit in *. simpl String.length in Hlen. lia. }
  rewrite 2!natural_keys_suffix by assumption. reflexivity.
Qed.

Lemma leading_zero_same_key_witness :
  natural_keys "run-02" = natural_keys "run-2".
Proof.
  apply (@leading_zero_same_key "run-" "2").
  - repeat constructor.
  - reflexivity.
  - split; [discriminate|repeat constructor].
  - intros H. discriminate H.
Defined.

(** ** More on the phases *)

Lemma filter_decorated (A : Type) (keyf : A -> result key)
      (f : A -> bool) (k : key) (d : list (key * A)) :
  (forall x kx, keyf x = inr kx ->
                f x = match key_compare kx k with Eq => true | _ => false end) ->
  decorated keyf d ->
  filter f (map snd d) = map snd (filter (has_key k) d).
Proof.
  intros Hf. induction 1 as [|[kp x] d Hp _ IH]; simpl; [reflexivity|].
  simpl in Hp. rewrite (Hf x kp Hp). unfold has_key at 1. simpl.
  destruct (key_compare kp k); simpl; now rewrite IH.
Qed.

Lemma snoc_inv (A : Type) (t0 pre post : list A) (x y : A) :
  t0 ++ [x] = pre ++ y :: post ->
  (post = [] /\ y = x /\ pre = t0) \/ In y t0.
Proof.
  intros H. destruct (@exists_last _ (y :: post)) as (l & z & Hl);
    [discriminate|].
  rewrite Hl, app_assoc in H. apply app_inj_tail in H. destruct H as [-> ->].
  destruct post as [|p post].
  - left. destruct l as [|a l].
    + simpl in Hl. injection Hl as ->. now rewrite app_nil_r.
    + exfalso. simpl in Hl. injection Hl as _ Hl. now destruct l.
  - right. apply in_or_app. right.
    destruct l as [|a l]; simpl in Hl.
    + discriminate.
    + injection Hl as -> _. now left.
Qed.

Lemma strongly_sorted_constant (n : nat) (t : list event) :
  Forall (fun ev => phase_index ev = n) t ->
  StronglySorted (fun a b => phase_index a <= phase_index b) t.
Proof.
  induction 1 as [|ev t Hev Ht IH]; constructor; [exact IH|].
  revert Ht. apply Forall_impl. intros ev' ->. lia.
Qed.

Lemma sorts_phase (ks : list kind) :
  Forall (fun ev => phase_index ev = 0) (sorts_ok ks).
Proof.
  apply Forall_forall. intros ev H. classify H. now subst.
Qed.

Lemma validates_phase (t : TransactionType.t SubTransaction)
      (ks : list kind) :
  Forall (fun ev => phase_index ev = 1) (validates_ok t ks).
Proof.
  apply Forall_forall. intros ev H. classify H. now subst.
Qed.

Lemma executes_phase (l : list (kind * item)) :
  Forall (fun ev => phase_index ev = 2) (executes_ok l).
Proof.
  apply Forall_forall. intros ev H. classify H. now subst.
Qed.

(** Segments of increasing place, one after the other. *)
Lemma strongly_sorted_segments (n : nat) (t1 t2 : list event) :
  Forall (fun ev => phase_index ev = n) t1 ->
  StronglySorted (fun a b => phase_index a <= phase_index b) t2 ->
  Forall (fun ev => n <= phase_index ev) t2 ->
  StronglySorted (fun a b => phase_index a <= phase_index b) (t1 ++ t2).
Proof.
  intros H1 H2 Hle. apply strongly_sorted_app; [|exact H2|].
  - now apply strongly_sorted_constant with (n := n).
  - intros x y Hx Hy.
    rewrite (proj1 (Forall_forall _ _) H1 x Hx).
    exact (proj1 (Forall_forall _ _) Hle y Hy).
Qed.

Section MoreProtocol.
Variable C : Collaborators.
Implicit Types (s : State C) (k : kind).

(** X5: whatever way [__exit__] ends, every queue holds afterwards the
    records it held before, each as many times: the sort phase loses none,
    adds none, and the other phases leave the queues alone. *)
Theorem queues_keep_their_records (args : option exn) s k :
  Permutation (queue_of k s) (queue_of k (snd (__exit__ args s))).
Proof.
  destruct (__exit__ args s) as [r s'] eqn:Hrun. simpl.
  destruct (exit_spec _ _ Hrun) as (t & _ & _ & Hstep).
  change (Permutation (queue_in (sub_transactions s) k)
                      (queue_in (sub_transactions s') k)).
  destruct (Hstep k) as [Heq|[_ Hs]].
  - now rewrite Heq.
  - exact (@sorted_perm _ _ (@sort_queue_shape C) _ _ Hs).
Qed.

(** X6: the queue a [validate] is called on is what [sorted] returned for
    the queue the callers filled, which was not empty. *)
Theorem validate_sees_sorted_queue (args : option exn) s :
  exists t,
    log (snd (__exit__ args s)) = log s ++ t /\
    (forall k q o,
        In (EvValidate k q o) t ->
        queue_of k s <> [] /\ sort_queue C (queue_of k s) = inr q).
Proof.
  destruct (__exit__ args s) as [r s'] eqn:Hrun. simpl.
  destruct (exit_spec _ _ Hrun) as (t & Hlog & Hex & _).
  exists t. split; [exact Hlog|]. intros k q o Hin.
  assert (Hk : forall t', all_sorted C (sub_transactions s) t' ->
                          In k (busy t' fields) ->
                          queue_of k s <> [] /\
                          sort_queue C (queue_of k s) = inr (queue_in t' k)).
  { intros t' Hsorted Hb.
    rewrite (@all_sorted_busy _ _ _ fields Hsorted) in Hb.
    apply busy_In in Hb. destruct Hb as [_ Hne].
    split; [exact Hne|]. now apply (proj2 (Hsorted k)). }
  destruct Hex as [ks1 k0 ks2 e0 Hb Hs
                  |ks1 k0 ks2 e0 Hsorted Hb
                  |l1 k0 x0 l2 e0 Hsorted Hp
                  |o' Hsorted];
    split_in Hin; classify Hin; try discriminate;
    injection Hin as ? ? ?; subst; apply Hk; try assumption;
    rewrite ?Hb; first [apply in_elt | apply in_or_app; left; assumption].
Qed.

(** X7: [sorted] is stable on the queues: the records of one key come out
    in the order they went in. *)
Theorem sort_queue_stable (q l : list item) (k : key) :
  sort_queue C q = inr l ->
  filter (has_natural_key C k) l = filter (has_natural_key C k) q.
Proof.
  intros H.
  destruct (@sorted_inr _ _ (@sort_queue_shape C) _ _ H) as (d & Hd & ->).
  destruct (@decorate_inr _ _ _ _ Hd) as [<- Hdec].
  assert (Hf : forall x kx,
             natural_keys (str C x) = inr kx ->
             has_natural_key C k x
             = match key_compare kx k with Eq => true | _ => false end)
    by (intros x kx Hx; unfold has_natural_key; now rewrite Hx).
  rewrite (@filter_decorated _ _ _ k d Hf Hdec).
  rewrite (@filter_decorated _ _ _ k (stable_sort d) Hf).
  - now rewrite stable_sort_stable.
  - unfold decorated. now rewrite <- (stable_sort_perm d).
Qed.

(** X8: when, in the string of every queued record, [str.isdigit] accepts
    no character but decimal digits, and the string is no longer than
    [int] converts, the sort phase raises nothing: every queue that is not
    empty is sorted, and assigned what [sorted] returns. *)
Theorem plain_queues_are_sorted (args : option exn) s :
  (forall k, Forall (plain C) (queue_of k s)) ->
  exists t,
    log (snd (__exit__ args s)) = log s ++ t /\
    (forall k e, ~ In (EvSort k (Some e)) t) /\
    (forall k, queue_of k s <> [] ->
               In (EvSort k None) t /\
               sort_queue C (queue_of k s)
               = inr (queue_of k (snd (__exit__ args s)))).
Proof.
  intros Hplain.
  destruct (__exit__ args s) as [r s'] eqn:Hrun. simpl.
  destruct (exit_spec _ _ Hrun) as (t & Hlog & Hex & _).
  exists t. split; [exact Hlog|].
  assert (Hsorts : forall t', all_sorted C (sub_transactions s) t' ->
             forall k, queue_of k s <> [] ->
                       In (EvSort k None) (sorts_ok (busy t' fields)) /\
                       sort_queue C (queue_of k s) = inr (queue_in t' k)).
  { intros t' Hsorted k Hne. split; [|now apply (proj2 (Hsorted k))].
    unfold sorts_ok. apply in_map_iff. exists k. split; [reflexivity|].
    now apply (@all_sorted_In_busy _ _ _ _ Hsorted). }
  destruct Hex as [ks1 k0 ks2 e0 Hb Hs
                  |ks1 k0 ks2 e0 Hsorted Hb
                  |l1 k0 x0 l2 e0 Hsorted Hp
                  |o' Hsorted].
  - exfalso. apply (@sorted_inl _ _ (@sort_queue_shape C)) in Hs.
    destruct Hs as (x & Hx & Hraise).
    pose proof (proj1 (Forall_forall _ _) (Hplain k0) x Hx) as Hpx.
    destruct Hpx as [Hchars Hlen].
    destruct (natural_keys_plain Hchars Hlen) as (kx & Hkx). congruence.
  - split.
    + intros k e Hin. split_in Hin; classify Hin; discriminate.
    + intros k Hne. destruct (Hsorts _ Hsorted k Hne) as [H1 H2].
      split; [apply in_or_app; now left|exact H2].
  - split.
    + intros k e Hin. split_in Hin; classify Hin; discriminate.
    + intros k Hne. destruct (Hsorts _ Hsorted k Hne) as [H1 H2].
      split; [apply in_or_app; now left|exact H2].
  - split.
    + intros k e Hin. split_in Hin; classify Hin; discriminate.
    + intros k Hne. destruct (Hsorts _ Hsorted k Hne) as [H1 H2].
      split; [apply in_or_app; now left|exact H2].
Qed.

(** X9: the run stops at the first step that raises: a sort, a [validate],
    an [execute] or [self.db.__exit__] that raises is the last step of the
    run, and its exception is the one [__exit__] raises.  The records
    queued after a record whose [execute] fails are not executed. *)
Theorem first_failure_ends_the_run (args : option exn) s :
  exists t,
    log (snd (__exit__ args s)) = log s ++ t /\
    (forall pre ev post e,
        t = pre ++ ev :: post -> outcome ev = Some e ->
        post = [] /\ fst (__exit__ args s) = inl e).
Proof.
  destruct (__exit__ args s) as [r s'] eqn:Hrun. simpl.
  destruct (exit_finalization _ _ Hrun)
    as (t0 & ev0 & Hlog & Hret & _ & Hr & _).
  exists (t0 ++ [ev0]). split; [exact Hlog|].
  intros pre ev post e Ht Hout. apply snoc_inv in Ht.
  destruct Ht as [(-> & -> & _)|Hin].
  - split; [reflexivity|]. now rewrite Hr, Hout.
  - rewrite (proj1 (Forall_forall _ _) Hret ev Hin) in Hout. discriminate.
Qed.

(** X10: the phases are not interleaved: in the trace of a run all the
    sorts come first, then all the [validate] calls, then all the
    [execute] calls, then [self.db.__exit__]. *)
Theorem phases_in_sequence (args : option exn) s :
  exists t,
    log (snd (__exit__ args s)) = log s ++ t /\
    StronglySorted (fun a b => phase_index a <= phase_index b) t.
Proof.
  destruct (__exit__ args s) as [r s'] eqn:Hrun. simpl.
  destruct (exit_spec _ _ Hrun) as (t & Hlog & Hex & _).
  exists t. split; [exact Hlog|].
  assert (Hlast : forall ev,
             StronglySorted (fun a b => phase_index a <= phase_index b) [ev])
    by (intros ev; repeat constructor).
  destruct Hex as [ks1 k0 ks2 e0 Hb Hs
                  |ks1 k0 ks2 e0 Hsorted Hb
                  |l1 k0 x0 l2 e0 Hsorted Hp
                  |o' Hsorted].
  - apply strongly_sorted_segments with (n := 0);
      [apply sorts_phase|apply Hlast|repeat constructor].
  - apply strongly_sorted_segments with (n := 0); [apply sorts_phase| |].
    + apply strongly_sorted_segments with (n := 1);
        [apply validates_phase|apply Hlast|repeat constructor].
    + apply Forall_forall. intros ev _. lia.
  - apply strongly_sorted_segments with (n := 0); [apply sorts_phase| |].
    + apply strongly_sorted_segments with (n := 1); [apply validates_phase| |].
      * apply strongly_sorted_segments with (n := 2);
          [apply executes_phase|apply Hlast|repeat constructor].
      * apply Forall_app. split; [|repeat constructor].
        eapply Forall_impl; [|apply executes_phase].
        intros ev ->. lia.
    + apply Forall_forall. intros ev _. lia.
  - apply strongly_sorted_segments with (n := 0); [apply sorts_phase| |].
    + apply strongly_sorted_segments with (n := 1); [apply validates_phase| |].
      * apply strongly_sorted_segments with (n := 2);
          [apply executes_phase|apply Hlast|repeat constructor].
      * apply Forall_app. split; [|repeat constructor].
        eapply Forall_impl; [|apply executes_phase].
        intros ev ->. lia.
    + apply Forall_forall. intros ev _. lia.
Qed.
End MoreProtocol.

Lemma sort_queue_stable_witness :
  filter (has_natural_key accepting [TStr "run-"; TInt 2; TStr ""])
         [ItemPath "a"; ItemPath "run-02"; ItemPath "run-2"; ItemPath "run-10"]
  = filter (has_natural_key accepting [TStr "run-"; TInt 2; TStr ""])
           [ItemPath "run-10"; ItemPath "run-02"; ItemPath "a";
            ItemPath "run-2"].
Proof.
  exact (@sort_queue_stable accepting
           [ItemPath "run-10"; ItemPath "run-02"; ItemPath "a";
            ItemPath "run-2"] _ [TStr "run-"; TInt 2; TStr ""] eq_refl).
Defined.

Lemma plain_queues_are_sorted_witness :
  exists t,
    log (snd (__exit__ None removals_state)) = log removals_state ++ t /\
    (forall k e, ~ In (EvSort k (Some e)) t) /\
    (forall k, queue_of k removals_state <> [] ->
               In (EvSort k None) t /\
               sort_queue accepting (queue_of k removals_state)
               = inr (queue_of k (snd (__exit__ None removals_state)))).
Proof.
  apply (@plain_queues_are_sorted accepting None removals_state).
  intros []; repeat constructor; intros H; discriminate H.
Defined.

(** ** More on the scope and on the record-adding methods *)

Lemma kind_eqb_eq (k k' : kind) : kind_eqb k k' = true <-> k = k'.
Proof. destruct k, k'; unfold kind_eqb; simpl; split; congruence. Qed.

Lemma queued_cons (k : kind) (c : method_call) (cs : list method_call) :
  queued k (c :: cs)
  = if kind_eqb (fst (record_of c)) k then snd (record_of c) :: queued k cs
    else queued k cs.
Proof.
  unfold queued. simpl. now destruct (kind_eqb (fst (record_of c)) k).
Qed.

(** The records of a list, taken kind after kind, are the records of the
    list. *)
Lemma partition_by_kind (recs : list (kind * item)) :
  Permutation
    (flat_map (fun k => map (pair k)
                            (map snd (filter (fun p => kind_eqb (fst p) k)
                                             recs)))
              fields)
    recs.
Proof.
  induction recs as [|[kp x] recs IH]; [reflexivity|].
  unfold fields in *. destruct kp; cbn -[kind_eqb] in *;
    cbn [kind_eqb kind_index Nat.eqb]; cbn [map snd app];
    rewrite <- ?Permutation_middle; now constructor.
Qed.

Lemma pending_perm (t t' : TransactionType.t SubTransaction)
      (ks : list kind) :
  (forall k, Permutation (queue_in t k) (queue_in t' k)) ->
  Permutation (pending t ks) (pending t' ks).
Proof.
  intros H. induction ks as [|k ks IH]; [reflexivity|].
  rewrite !pending_cons. apply Permutation_app; [|exact IH].
  apply Permutation_map, H.
Qed.

Section MoreScope.
Variable C : Collaborators.
Implicit Types (s : State C) (k : kind).

Lemma perform_add (c : method_call) s :
  @perform C c s = add (fst (record_of c)) (snd (record_of c)) s.
Proof. now destruct c. Qed.

Lemma calls_queue (cs : list method_call) s k :
  queue_of k (snd (for_each cs (@perform C) s)) = queue_of k s ++ queued k cs.
Proof.
  revert s; induction cs as [|c cs IH]; intros s.
  - simpl. now rewrite app_nil_r.
  - simpl for_each. unfold bind. rewrite perform_add.
    destruct (@add_appended C (fst (record_of c)) (snd (record_of c)) s)
      as (Hr & Hq & Hothers & _).
    destruct (add (fst (record_of c)) (snd (record_of c)) s) as [r s1].
    simpl in Hr, Hq, Hothers. subst r. rewrite IH, queued_cons.
    destruct (kind_eqb (fst (record_of c)) k) eqn:E.
    + apply kind_eqb_eq in E. subst k. rewrite Hq, <- app_assoc. reflexivity.
    + rewrite Hothers; [reflexivity|]. intros ->.
      rewrite (proj2 (kind_eqb_eq _ _) eq_refl) in E. discriminate.
Qed.

Lemma run_func_eq (A : Type) (f : func A) s :
  @run_func C A f s = (finish f, snd (for_each (calls f) (@perform C) s)).
Proof.
  unfold run_func, bind.
  destruct (@calls_frame C (calls f) s) as (Hr & _).
  destruct (for_each (calls f) (@perform C) s) as [r s1]. simpl in *.
  now subst r.
Qed.

Lemma with_transaction_return (A : Type) (body : M C A) s s1 s2 (a : A) :
  __enter__ s = (inr tt, s1) -> body s1 = (inr a, s2) ->
  with_transaction body s
  = (match fst (__exit__ None s2) with
     | inl e' => inl e'
     | inr _ => inr a
     end, snd (__exit__ None s2)).
Proof.
  intros H1 H2. unfold with_transaction. rewrite H1, H2.
  now destruct (__exit__ None s2) as [[e'|u] s3].
Qed.

(** What [__exit__] is given changes nothing but the call of
    [self.db.__exit__]. *)
Lemma exit_args_irrelevant (args args' : option exn) s :
  filter (fun ev => negb (is_db_exit ev)) (log (snd (__exit__ args s)))
  = filter (fun ev => negb (is_db_exit ev)) (log (snd (__exit__ args' s))).
Proof.
  unfold __exit__, bind. destruct (phases s) as [[e|u] s4]; [reflexivity|].
  unfold call.
  destruct (db_exit C args (world s4)) as [o w1].
  destruct (db_exit C args' (world s4)) as [o' w2].
  destruct o, o'; simpl; rewrite !filter_app; simpl; reflexivity.
Qed.
(** X11: record-adding calls compose: after any sequence of them, each
    queue is what it was followed by the records of its kind, in the order
    of the calls, twice if asked twice; nothing has been validated or
    executed meanwhile. *)
Theorem calls_queue_in_order (cs : list method_call) s :
  fst (for_each cs (@perform C) s) = inr tt /\
  (forall k, queue_of k (snd (for_each cs (@perform C) s))
             = queue_of k s ++ queued k cs) /\
  world (snd (for_each cs (@perform C) s)) = world s /\
  log (snd (for_each cs (@perform C) s)) = log s.
Proof.
  destruct (@calls_frame C cs s) as (Hr & Hw & Hl).
  split; [exact Hr|]. split; [|now split].
  intros k. apply calls_queue.
Qed.

(** X12: when the wrapped function returns [a] and every step of
    [__exit__] returns, the wrapper returns [a], and [self.db.__exit__] has
    been called once, without an exception to report; when a step raises,
    [a] is lost and the caller gets the exception of that step. *)
Theorem wrapper_returns_value (A : Type) (f : func A) (w : World C) (a : A) :
  finish f = inr a -> fst (db_enter C w) = None ->
  exists t,
    log (snd (@wrapper C A f w)) = EvDbEnter None :: t /\
    (Forall (fun ev => outcome ev = None) t ->
     fst (@wrapper C A f w) = inr a /\
     filter is_db_exit t = [EvDbExit None None]) /\
    (forall ev e,
        In ev t -> outcome ev = Some e -> fst (@wrapper C A f w) = inl e).
Proof.
  intros Hf Henter. unfold wrapper.
  pose proof (enter_returns (init C w) Henter) as Hen.
  set (s1 := {| sub_transactions := sub_transactions (init C w);
                world := snd (db_enter C (world (init C w)));
                log := log (init C w) ++ [EvDbEnter None] |}) in *.
  destruct (@run_func_frame C A f s1) as (Hr & _ & Hl).
  destruct (@run_func C A f s1) as [r2 s2] eqn:Hbody. simpl in Hr, Hl.
  rewrite Hf in Hr. subst r2.
  rewrite (@with_transaction_return _ _ _ _ _ _ Hen Hbody).
  destruct (__exit__ None s2) as [r3 s3] eqn:Hrun.
  destruct (exit_finalization _ _ Hrun)
    as (t0 & ev & Hlog & Hret & Hnodb & Hr3 & Hev).
  rewrite Hl in Hlog. simpl in Hlog.
  exists (t0 ++ [ev]). simpl fst. simpl snd. split; [exact Hlog|]. split.
  - intros Hall. rewrite Forall_app in Hall. destruct Hall as [_ Hall].
    inversion Hall as [|? ? Hout _]; subst. rewrite Hout. simpl.
    split; [reflexivity|].
    rewrite filter_app, (filter_none _ Hnodb). simpl.
    destruct Hev as [(o & ->)|(_ & e & He)]; [|congruence].
    simpl in Hout. now subst o.
  - intros ev' e Hin Hout. apply in_app_or in Hin.
    destruct Hin as [Hin|[<-|[]]].
    + rewrite (proj1 (Forall_forall _ _) Hret ev' Hin) in Hout. discriminate.
    + rewrite Hout in Hr3. simpl in Hr3. now subst r3.
Qed.

(** X13: when [self.db.__enter__] raises, the wrapped function is not
    called and [__exit__] is not run: nothing is queued, sorted, validated
    or executed, and the exception goes to the caller. *)
Theorem enter_failure_skips_everything (A : Type) (f : func A)
        (w : World C) (e : exn) :
  fst (db_enter C w) = Some e ->
  fst (@wrapper C A f w) = inl e /\
  log (snd (@wrapper C A f w)) = [EvDbEnter (Some e)] /\
  (forall k, queue_of k (snd (@wrapper C A f w)) = []).
Proof.
  intros H. unfold wrapper, with_transaction, __enter__, call. simpl.
  destruct (db_enter C w) as [o w']. simpl in H. subst o. simpl.
  repeat split. now intros [].
Qed.

(** X14: an exception of the wrapped function does not cancel what it
    queued: the sort, [validate] and [execute] steps of the run are the
    same as if the function had returned after the same calls.  Only
    [self.db.__exit__] is told of the exception. *)
Theorem caller_error_does_not_cancel (A : Type) (cs : list method_call)
        (e : exn) (a : A) (w : World C) :
  filter (fun ev => negb (is_db_exit ev))
         (log (snd (@wrapper C A {| calls := cs; finish := inl e |} w)))
  = filter (fun ev => negb (is_db_exit ev))
           (log (snd (@wrapper C A {| calls := cs; finish := inr a |} w))).
Proof.
  unfold wrapper, with_transaction.
  destruct (__enter__ (init C w)) as [[e0|u] s1]; [reflexivity|].
  rewrite !run_func_eq. simpl calls. simpl finish.
  set (s2 := snd (for_each cs (@perform C) s1)). cbv beta iota.
  pose proof (exit_args_irrelevant (Some e) None s2) as H.
  destruct (__exit__ (Some e) s2) as [[e1|u1] s3];
    destruct (__exit__ None s2) as [[e2|u2] s4]; exact H.
Qed.

(** X15: when the wrapper returns, every operation the wrapped function
    queued has been executed exactly once, and nothing else has. *)
Theorem commit_executes_each_record_once (A : Type) (f : func A)
        (w : World C) (a : A) :
  fst (@wrapper C A f w) = inr a ->
  Permutation (execute_calls (log (snd (@wrapper C A f w))))
              (map record_of (calls f)).
Proof.
  unfold wrapper, with_transaction.
  destruct (__enter__ (init C w)) as [[e0|u] s1] eqn:Hen; [discriminate|].
  apply call_inv in Hen. destruct Hen as (o0 & _ & Hsub1 & _ & _ & Hlog1).
  rewrite run_func_eq.
  set (s2 := snd (for_each (calls f) (@perform C) s1)).
  assert (Hq2 : forall k, queue_in (sub_transactions s2) k
                          = queued k (calls f)).
  { intros k. change (queue_of k s2 = queued k (calls f)).
    unfold s2. rewrite calls_queue. unfold queue_of. rewrite Hsub1.
    now destruct k. }
  assert (Hl2 : log s2 = [EvDbEnter o0]).
  { unfold s2. destruct (@calls_frame C (calls f) s1) as (_ & _ & ->).
    exact Hlog1. }
  destruct (finish f) as [e|a'].
  - destruct (__exit__ (Some e) s2) as [[e1|u1] s3]; discriminate.
  - destruct (__exit__ None s2) as [[e1|[]] s3] eqn:Hrun; [discriminate|].
    intros _. simpl snd.
    destruct (exit_spec _ _ Hrun) as (t & Hlog & Hex & Hstep).
    rewrite Hlog, Hl2. cbn [app execute_calls].
    inversion Hex as [| | |o Hsorted Hres Ht]; subst t.
    trace_calls. rewrite app_nil_r.
    rewrite <- (partition_by_kind (map record_of (calls f))).
    apply Permutation_sym.
    apply Permutation_trans with (pending (sub_transactions s2) fields).
    + assert (Heq : pending (sub_transactions s2) fields
                    = flat_map
                        (fun k => map (pair k) (queued k (calls f))) fields)
        by (unfold pending; apply flat_map_ext; intros k; now rewrite Hq2).
      rewrite Heq. reflexivity.
    + apply pending_perm. intros k.
      destruct (Hstep k) as [->|[_ Hs]]; [reflexivity|].
      exact (@sorted_perm _ _ (@sort_queue_shape C) _ _ Hs).
Qed.
End MoreScope.

Lemma wrapper_returns_value_witness :
  exists t,
    log (snd (@wrapper accepting unit two_runs_caller tt))
    = EvDbEnter None :: t /\
    (Forall (fun ev => outcome ev = None) t ->
     fst (@wrapper accepting unit two_runs_caller tt) = inr tt /\
     filter is_db_exit t = [EvDbExit None None]) /\
    (forall ev e,
        In ev t -> outcome ev = Some e ->
        fst (@wrapper accepting unit two_runs_caller tt) = inl e).
Proof.
  exact (@wrapper_returns_value accepting unit two_runs_caller tt tt
           eq_refl eq_refl).
Defined.

Lemma enter_failure_skips_everything_witness :
  fst (@wrapper closed_database unit mixed_caller tt)
  = inl (OtherError "unable to open database file") /\
  log (snd (@wrapper closed_database unit mixed_caller tt))
  = [EvDbEnter (Some (OtherError "unable to open database file"))] /\
  (forall k, queue_of k (snd (@wrapper closed_database unit mixed_caller tt))
             = []).
Proof.
  exact (@enter_failure_skips_everything closed_database unit mixed_caller
           tt (OtherError "unable to open database file") eq_refl).
Defined.

Lemma commit_executes_each_record_once_witness :
  Permutation
    (execute_calls (log (snd (@wrapper accepting unit mixed_caller tt))))
    (map record_of (calls mixed_caller)).
Proof.
  exact (@commit_executes_each_record_once accepting unit mixed_caller tt tt
           eq_refl).
Defined.

(** ** The sorted queue and the empty transaction *)

Section SortedQueue.
Variable C : Collaborators.

(** X16: in a queue [sorted] returned, no record is followed, however far,
    by a record whose key Python's [<] finds smaller. *)
Theorem sorted_queue_in_key_order (q l : list item) (i j : nat)
        (x y : item) (kx ky : key) :
  sort_queue C q = inr l -> i < j ->
  nth_error l i = Some x -> nth_error l j = Some y ->
  natural_keys (str C x) = inr kx -> natural_keys (str C y) = inr ky ->
  key_lt ky kx = inr false.
Proof.
  intros H Hij Hi Hj Hx Hy.
  destruct (@sort_queue_natural _ _ _ H) as [_ Hs].
  destruct (strongly_sorted_nth Hs Hij Hi Hj) as (kx' & ky' & Kx & Ky & Hle).
  rewrite Hx in Kx. rewrite Hy in Ky. injection Kx as <-. injection Ky as <-.
  rewrite (@key_lt_compare ky kx false);
    [|exact (natural_keys_alternates _ Hy)
     |exact (natural_keys_alternates _ Hx)].
  unfold key_le in Hle. rewrite (key_compare_antisym kx ky).
  destruct (key_compare kx ky); simpl; congruence.
Qed.

(** X17: with nothing queued, [__exit__] sorts, validates and executes
    nothing: its only step is [self.db.__exit__], called with what
    [__exit__] was given, and what that call raises or returns is what
    [__exit__] raises or returns. *)
Theorem empty_transaction_only_finalizes (args : option exn) (s : State C) :
  (forall k, queue_of k s = []) ->
  log (snd (__exit__ args s))
  = log s ++ [EvDbExit args (fst (db_exit C args (world s)))] /\
  fst (__exit__ args s) = result_of (fst (db_exit C args (world s))) /\
  world (snd (__exit__ args s)) = snd (db_exit C args (world s)).
Proof.
  intros Hempty. destruct s as [[[q1] [q2] [q3] [q4] [q5]] w lg].
  pose proof (Hempty KDescriptionChange) as H1.
  pose proof (Hempty KInterrupt) as H2.
  pose proof (Hempty KRemoval) as H3.
  pose proof (Hempty KMove) as H4.
  pose proof (Hempty KNewRun) as H5.
  unfold queue_of in *. simpl in *. subst.
  cbv beta iota zeta delta
      -[sort_queue app st_validate st_execute db_exit].
  destruct (db_exit C args w) as [[e|] w']; repeat split.
Qed.
End SortedQueue.

Lemma sorted_queue_in_key_order_witness :
  key_lt [TStr "run-"; TInt 10; TStr ""] [TStr "run-"; TInt 2; TStr ""]
  = inr false.
Proof.
  exact (@sorted_queue_in_key_order accepting
           [ItemPath "run-10"; ItemPath "a"; ItemPath "run-2"] _ 1 2
           (ItemPath "run-2") (ItemPath "run-10") _ _
           eq_refl (le_n 2) eq_refl eq_refl eq_refl eq_refl).
Defined.

Lemma empty_transaction_only_finalizes_witness :
  log (snd (__exit__ (Some (OtherError "caller")) (init accepting tt)))
  = log (init accepting tt) ++
    [EvDbExit (Some (OtherError "caller"))
              (fst (db_exit accepting (Some (OtherError "caller"))
                            (world (init accepting tt))))] /\
  fst (__exit__ (Some (OtherError "caller")) (init accepting tt))
  = result_of (fst (db_exit accepting (Some (OtherError "caller"))
                            (world (init accepting tt)))) /\
  world (snd (__exit__ (Some (OtherError "caller")) (init accepting tt)))
  = snd (db_exit accepting (Some (OtherError "caller"))
                 (world (init accepting tt))).
Proof.
  apply (@empty_transaction_only_finalizes accepting
           (Some (OtherError "caller")) (init accepting tt)).
  intros []; reflexivity.
Defined.
